(** * FontData: character metrics by variant, and stretchy delimiters

    A shallow embedding of [mathjax3-ts/output/chtml/FontData.ts].

    The class keeps three tables.  [variant] maps a variant name to a
    [VariantData], whose [chars] is a JavaScript object with a prototype
    chain: a lookup [chars[n]] walks the chain until some object has [n] as
    an own property.  [createVariant] builds these chains with
    [Object.create], and a variant created with a [link] shares one object
    of its chain with the [linked] list of the link variant, so that
    [defineChars] on the link variant writes into it.  This sharing is what
    the embedding has to keep: character maps live in a heap of objects
    addressed by location, and the methods thread the heap.

    The registry [variant] is a plain object, so a read [this.variant[name]]
    finds the variant stored under [name], or else a member that the object
    inherits ([Object.prototype] has ["constructor"], ["toString"], ...), or
    nothing; [registry_get] tells the three apart.  The map [variant] holds
    what the assignments [this.variant[name] = ...] have stored; under the
    key ["__proto__"] it holds the prototype that such an assignment gives
    the registry object.  Character and delimiter codes are integers.  The
    metrics themselves are never computed with, so a [number] that stores
    one is kept as a rational. *)

From Stdlib Require Import ZArith QArith Lia.
From stdpp Require Import base option list gmap strings.

Open Scope string_scope.
Open Scope nat_scope.
Open Scope list_scope.

(** ** Data *)

(** A JavaScript [number] that stores a metric. *)
Definition number : Type := Q.

(** [OptionList] comes from [util/Options.js]: a record with string keys. *)
Definition OptionList : Type := list (string * string).

(** [CharData]: [height, depth, width, italic-correction, skew, options]. *)
Inductive CharData : Type :=
| Char3 (h d w : number)
| Char4 (h d w ic : number)
| Char5 (h d w ic sk : number)
| Char6 (h d w ic sk : number) (options : OptionList).

(** [CharMap] as a plain value: the own properties of an object. *)
Abbreviation CharMap := (gmap Z CharData).

(** [CharMapMap], kept in the order [Object.keys] lists it. *)
Definition CharMapMap : Type := list (string * CharMap).

(** A location of a character-map object in the heap. *)
Abbreviation loc := nat.

(** A character-map object: its own properties and its prototype.  An object
    made by [{}] has [proto = None] (its prototype, [Object.prototype], has no
    numeric key). *)
Record CharMapObj : Type := mkObj {
  own : CharMap;
  proto : option loc
}.

Abbreviation heap := (list CharMapObj).

Record VariantData : Type := mkVariant {
  linked : list loc;
  chars : loc
}.

Abbreviation VariantMap := (gmap string VariantData).

Record DelimiterData : Type := mkDelim {
  dir : string;
  sizes : option (list number);
  variants : option (list Z);
  stretch : option (list Z);
  HDW : option (list number)
}.

Abbreviation DelimiterMap := (gmap Z DelimiterData).

Record FontParameters : Type := mkParams {
  x_height : number;
  quad : number;
  num1 : number;
  num2 : number;
  num3 : number;
  denom1 : number;
  denom2 : number;
  sup1 : number;
  sup2 : number;
  sup3 : number;
  sub1 : number;
  sub2 : number;
  sup_drop : number;
  sub_drop : number;
  delim1 : number;
  delim2 : number;
  axis_height : number;
  rule_thickness : number;
  big_op_spacing1 : number;
  big_op_spacing2 : number;
  big_op_spacing3 : number;
  big_op_spacing4 : number;
  big_op_spacing5 : number;
  surd_height : number;
  scriptspace : number;
  nulldelimiterspace : number;
  delimiterfactor : number;
  delimitershortfall : number;
  min_rule_thickness : number
}.

(** The stretch direction. *)
Definition V : string := "V".
Definition H : string := "H".

(** The instance fields of a [FontData] object.  The objects they hold
    ([variant], [delimiters], [sizeVariants], [params] and each
    [VariantData] with its [linked] array) are created by the instance and
    reachable only through it, so they are kept by value; the character
    maps are shared and live in the heap. *)
Record FontData : Type := mkFont {
  variant : VariantMap;
  delimiters : DelimiterMap;
  sizeVariants : list string;
  params : FontParameters
}.

(** The static members a (sub)class of [FontData] provides. *)
Class FontClass : Type := mkClass {
  defaultVariants : list (list string);
  defaultParams : FontParameters;
  defaultDelimiters : DelimiterMap;
  defaultChars : CharMapMap;
  defaultSizeVariants : list string
}.

(** ** Outcomes and the heap monad *)

Inductive js_error : Type := TypeError.

Inductive outcome (A : Type) : Type :=
| Returns (a : A)
| Throws (e : js_error).
Arguments Returns {A} a.
Arguments Throws {A} e.

(** A method body: it runs on the heap and returns a value with the new heap,
    or throws.  Every method of the class throws, if it does, before its
    first write. *)
Definition M (A : Type) : Type := heap → outcome (A * heap).

Definition ret {A} (a : A) : M A := λ h, Returns (a, h).
Definition throw {A} (e : js_error) : M A := λ _, Throws e.
Definition bind {A B} (m : M A) (k : A → M B) : M B :=
  λ h, match m h with
       | Returns (a, h') => k a h'
       | Throws e => Throws e
       end.

Notation "'let*' x ':=' m 'in' k" := (bind m (λ x, k))
  (at level 10, x name, m at level 100, k at level 200).

(** [Object.create(p)] and [{}]: a fresh object with no own property. *)
Definition object_create (p : option loc) : M loc :=
  λ h, Returns (length h, h ++ [mkObj ∅ p]).

(** The own properties of an object, as [Object.assign] reads its source. *)
Definition own_props (l : loc) : M CharMap :=
  λ h, Returns (from_option own ∅ (h !! l), h).

(** [Object.assign(l, src)]: every property of [src] becomes an own property
    of the object at [l], over what was there. *)
Definition assign_obj (src : CharMap) (o : CharMapObj) : CharMapObj :=
  mkObj (src ∪ own o) (proto o).

Definition object_assign (l : loc) (src : CharMap) : M unit :=
  λ h, Returns (tt, alter (assign_obj src) l h).

(** [for (const l of ls) body(l)] *)
Fixpoint for_of {A} (ls : list A) (body : A → M unit) : M unit :=
  match ls with
  | [] => ret tt
  | l :: ls' => let* _ := body l in for_of ls' body
  end.

(** The property read [o[n]]: the first object on the prototype chain of
    [l] that has [n] as an own property decides.  A prototype is older
    than the object made from it, so [S l] steps reach the end of the chain
    of [l]. *)
Fixpoint lookup_chain (fuel : nat) (h : heap) (l : loc) (n : Z) : option CharData :=
  match fuel with
  | O => None
  | S fuel' =>
      match h !! l with
      | None => None
      | Some o =>
          match own o !! n with
          | Some x => Some x
          | None =>
              match proto o with
              | Some p => lookup_chain fuel' h p n
              | None => None
              end
          end
      end
  end.

Definition get_prop (h : heap) (l : loc) (n : Z) : option CharData :=
  lookup_chain (S l) h l n.

(** The prototype chain of [l], nearest object first. *)
Fixpoint chain_from (fuel : nat) (h : heap) (l : loc) : list loc :=
  match fuel with
  | O => []
  | S fuel' =>
      match h !! l with
      | None => []
      | Some o =>
          l :: match proto o with
               | Some p => chain_from fuel' h p
               | None => []
               end
      end
  end.

Definition proto_chain (h : heap) (l : loc) : list loc :=
  chain_from (S l) h l.

(** ** The methods *)

(** A string used as a condition: [null] and the empty string are false. *)
Definition truthy (s : option string) : option string :=
  match s with
  | Some s' => if decide (s' = "") then None else Some s'
  | None => None
  end.

(** [a[i]] for an array and a number: [undefined] outside the array. *)
Definition array_get {A} (a : list A) (i : Z) : option A :=
  if decide (0 ≤ i)%Z then a !! Z.to_nat i else None.

(** [inherit ? Object.create(this.variant[inherit].chars) : {}] *)
Definition new_chars (inherit : option string) (this : FontData) : M loc :=
  match truthy inherit with
  | Some i =>
      match variant this !! i with
      | Some vi => object_create (Some (chars vi))
      | None => throw TypeError
      end
  | None => object_create None
  end.

(** The properties of [Object.prototype] (ECMAScript, with its Annex B):
    every plain object inherits them. *)
Definition object_prototype_keys : list string := [
  "constructor"; "hasOwnProperty"; "isPrototypeOf"; "propertyIsEnumerable";
  "toLocaleString"; "toString"; "valueOf"; "__proto__";
  "__defineGetter__"; "__defineSetter__"; "__lookupGetter__"; "__lookupSetter__"
].

(** What a read [this.variant[name]] finds. *)
Inductive member : Type :=
| Registered (vd : VariantData)
| Inherited
| Absent.

(** [name] is a property the registry object inherits: one of
    [Object.prototype], or, once an assignment to ["__proto__"] has made a
    variant record the prototype of the registry, one of that record. *)
Definition inherited_key (registry : VariantMap) (name : string) : bool :=
  bool_decide (name ∈ object_prototype_keys)
  || (bool_decide (is_Some (registry !! "__proto__"))
      && bool_decide (name ∈ ["linked"; "chars"])).

(** [this.variant[name]]: the stored variant, else an inherited member (a
    function or an object, true as a condition, with neither [chars] nor
    [linked]), else [undefined]. *)
Definition registry_get (this : FontData) (name : string) : member :=
  match variant this !! name with
  | Some vd => Registered vd
  | None => if inherited_key (variant this) name then Inherited else Absent
  end.

(** [link && this.variant[link]] holds with a variant: the link is taken. *)
Definition link_variant (link : option string) (this : FontData)
    : option (string * VariantData) :=
  l ← truthy link;
  match registry_get this l with
  | Registered vl => Some (l, vl)
  | _ => None
  end.

(** [link && this.variant[link]] holds with an inherited member: its
    [linked] is [undefined], and the call [linked.push] throws. *)
Definition link_broken (link : option string) (this : FontData) : bool :=
  match truthy link with
  | Some l =>
      match registry_get this l with
      | Inherited => true
      | _ => false
      end
  | None => false
  end.

Definition createVariant (name : string) (inherit link : option string)
    (this : FontData) : M FontData :=
  let* chars0 := new_chars inherit this in
  match link_variant link this with
  | Some (l, vl) =>
      let* src := own_props (chars vl) in
      let* _ := object_assign chars0 src in
      let registry := <[l := mkVariant (linked vl ++ [chars0]) (chars vl)]> (variant this) in
      let* chars1 := object_create (Some chars0) in
      ret (mkFont (<[name := mkVariant [] chars1]> registry)
             (delimiters this) (sizeVariants this) (params this))
  | None =>
      if link_broken link this then throw TypeError
      else
        ret (mkFont (<[name := mkVariant [] chars0]> (variant this))
               (delimiters this) (sizeVariants this) (params this))
  end.

(** [createVariant(variant[0], variant[1], variant[2])]: a missing element is
    [undefined]; as [inherit] or [link] it takes the default [null], as
    [name] it becomes the key ["undefined"]. *)
Fixpoint createVariants (variants : list (list string)) (this : FontData) : M FontData :=
  match variants with
  | [] => ret this
  | v :: rest =>
      let* this' := createVariant (default "undefined" (v !! 0)) (v !! 1) (v !! 2) this in
      createVariants rest this'
  end.

Definition defineChars (name : string) (cs : CharMap) (this : FontData) : M FontData :=
  match variant this !! name with
  | None => throw TypeError
  | Some vd =>
      let* _ := object_assign (chars vd) cs in
      let* _ := for_of (linked vd) (λ link, object_assign link cs) in
      ret this
  end.

Definition defineDelimiters (delims : DelimiterMap) (this : FontData) : FontData :=
  mkFont (variant this) (delims ∪ delimiters this) (sizeVariants this) (params this).

Definition getDelimiter (n : Z) (this : FontData) : option DelimiterData :=
  delimiters this !! n.

(** The index [i] after the [if] of [getSizeVariant]: [variants[i]] when the
    entry has a [variants] array (an array is true as a condition, also when
    empty), else [i] itself. *)
Definition size_index (d : DelimiterData) (i : Z) : option Z :=
  match variants d with
  | Some vs => array_get vs i
  | None => Some i
  end.

Definition getSizeVariant (n i : Z) (this : FontData) : outcome (option string) :=
  match delimiters this !! n with
  | None => Throws TypeError
  | Some d => Returns (size_index d i ≫= array_get (sizeVariants this))
  end.

Definition getChar (name : string) (n : Z) (this : FontData) (h : heap)
    : outcome (option CharData) :=
  match variant this !! name with
  | None => Throws TypeError
  | Some vd => Returns (get_prop h (chars vd) n)
  end.

Definition getVariant (name : string) (this : FontData) : member :=
  registry_get this name.

(** [for (const name of Object.keys(defaultChars)) defineChars(name, ...)] *)
Fixpoint defineAllChars (cm : CharMapMap) (this : FontData) : M FontData :=
  match cm with
  | [] => ret this
  | (name, cs) :: rest =>
      let* this' := defineChars name cs this in
      defineAllChars rest this'
  end.

(** The constructor, for the class [CLASS] of the object being made. *)
Definition constructor (CLASS : FontClass) : M FontData :=
  let this := mkFont ∅ ∅ (@defaultSizeVariants CLASS) (@defaultParams CLASS) in
  let* this1 := createVariants (@defaultVariants CLASS) this in
  let this2 := defineDelimiters (@defaultDelimiters CLASS) this1 in
  defineAllChars (@defaultChars CLASS) this2.

(** ** The class [FontData] *)

#[global] Instance FontData_class : FontClass := {|
  defaultVariants := [
    ["normal"];
    ["bold"; "normal"];
    ["italic"; "normal"];
    ["bold-italic"; "italic"; "bold"];
    ["double-struck"; "bold"];
    ["fraktur"; "normal"];
    ["bold-fraktur"; "bold"; "fraktur"];
    ["script"; "normal"];
    ["bold-script"; "bold"; "script"];
    ["sans-serif"; "normal"];
    ["bold-sans-serif"; "bold"; "sans-serif"];
    ["sans-serif-italic"; "italic"; "sans-serif"];
    ["bold-sans-serif-italic"; "bold-italic"; "sans-serif"];
    ["monospace"; "normal"]
  ];
  defaultParams := {|
    x_height := 0.442;
    quad := 1;
    num1 := 0.676;
    num2 := 0.394;
    num3 := 0.444;
    denom1 := 0.686;
    denom2 := 0.345;
    sup1 := 0.413;
    sup2 := 0.363;
    sup3 := 0.289;
    sub1 := 0.15;
    sub2 := 0.247;
    sup_drop := 0.386;
    sub_drop := 0.05;
    delim1 := 2.39;
    delim2 := 1.0;
    axis_height := 0.25;
    rule_thickness := 0.06;
    big_op_spacing1 := 0.111;
    big_op_spacing2 := 0.167;
    big_op_spacing3 := 0.2;
    big_op_spacing4 := 0.45;
    big_op_spacing5 := 0.1;
    surd_height := 0.075;
    scriptspace := 0.05;
    nulldelimiterspace := 0.12;
    delimiterfactor := 901;
    delimitershortfall := 0.3;
    min_rule_thickness := 1.25
  |}%Q;
  defaultDelimiters := ∅;
  defaultChars := [];
  defaultSizeVariants := []
|}.

(** ** Sequences of mutating calls *)

Inductive mutation : Type :=
| CreateVariant (name : string) (inherit link : option string)
| DefineChars (name : string) (cs : CharMap)
| DefineDelimiters (delims : DelimiterMap).

Definition apply_mutation (m : mutation) (this : FontData) : M FontData :=
  match m with
  | CreateVariant name inherit link => createVariant name inherit link this
  | DefineChars name cs => defineChars name cs this
  | DefineDelimiters delims => ret (defineDelimiters delims this)
  end.

Fixpoint apply_mutations (ms : list mutation) (this : FontData) : M FontData :=
  match ms with
  | [] => ret this
  | m :: rest =>
      let* this' := apply_mutation m this in
      apply_mutations rest this'
  end.

(** The call registers (or registers again) the variant [name]. *)
Definition creates (name : string) (m : mutation) : Prop :=
  match m with
  | CreateVariant name' _ _ => name' = name
  | _ => False
  end.

(** The calls the constructor makes, in order. *)
Definition constructor_calls (CLASS : FontClass) : list mutation :=
  map (λ v, CreateVariant (default "undefined" (v !! 0)) (v !! 1) (v !! 2))
      (@defaultVariants CLASS)
  ++ [DefineDelimiters (@defaultDelimiters CLASS)]
  ++ map (λ '(name, cs), DefineChars name cs) (@defaultChars CLASS).

(** The instance as the field initialisers and the first two statements of
    the constructor leave it. *)
Definition fresh_instance (CLASS : FontClass) : FontData :=
  mkFont ∅ ∅ (@defaultSizeVariants CLASS) (@defaultParams CLASS).

(** ** Two instances in one heap *)

(** Two [FontData] objects and the heap of character maps they both live
    in.  A call on one of them gets that instance and the heap. *)
Record world : Type := mkWorld {
  first_font : FontData;
  second_font : FontData;
  shared : heap
}.

Inductive side : Type := First | Second.

Definition call_on (s : side) (m : mutation) (w : world) : outcome world :=
  match s with
  | First =>
      match apply_mutation m (first_font w) (shared w) with
      | Returns (a, h) => Returns (mkWorld a (second_font w) h)
      | Throws e => Throws e
      end
  | Second =>
      match apply_mutation m (second_font w) (shared w) with
      | Returns (b, h) => Returns (mkWorld (first_font w) b h)
      | Throws e => Throws e
      end
  end.

Fixpoint calls_on (s : side) (ms : list mutation) (w : world) : outcome world :=
  match ms with
  | [] => Returns w
  | m :: rest =>
      match call_on s m w with
      | Returns w' => calls_on s rest w'
      | Throws e => Throws e
      end
  end.

(** [new CLASS()] twice, in the heap [h]. *)
Definition construct_two (CLASS : FontClass) (h : heap) : outcome world :=
  match constructor CLASS h with
  | Returns (a, h1) =>
      match constructor CLASS h1 with
      | Returns (b, h2) => Returns (mkWorld a b h2)
      | Throws e => Throws e
      end
  | Throws e => Throws e
  end.

(** The instance a query is made on. *)
Definition font_of (s : side) (w : world) : FontData :=
  match s with First => first_font w | Second => second_font w end.

Definition other (s : side) : side :=
  match s with First => Second | Second => First end.

(** ** What a variant holds *)

(** The variant's own table: the own properties of its [chars] object. *)
Definition own_table (name : string) (this : FontData) (h : heap) : option CharMap :=
  vd ← variant this !! name; own <$> h !! chars vd.

(** The object under the variant's own one, and its own properties: for a
    variant created with a link, the copy of the link variant. *)
Definition base_object (name : string) (this : FontData) (h : heap) : option loc :=
  vd ← variant this !! name; o ← h !! chars vd; proto o.

Definition link_snapshot (name : string) (this : FontData) (h : heap) : option CharMap :=
  b ← base_object name this h; own <$> h !! b.

(** The entry for [n] in the variant's own table, and in its link snapshot. *)
Definition own_entry (name : string) (n : Z) (this : FontData) (h : heap)
    : option CharData :=
  tbl ← own_table name this h; tbl !! n.

Definition snapshot_entry (name : string) (n : Z) (this : FontData) (h : heap)
    : option CharData :=
  tbl ← link_snapshot name this h; tbl !! n.

(** The first entry for [n] among the own properties of the objects [ls],
    in list order. *)
Fixpoint first_own (h : heap) (ls : list loc) (n : Z) : option CharData :=
  match ls with
  | [] => None
  | l :: ls' =>
      match h !! l ≫= λ o, own o !! n with
      | Some x => Some x
      | None => first_own h ls' n
      end
  end.

(** The prototype [createVariant] gives the first object it makes: the
    [chars] of the inherited variant, or none; nothing when the call throws. *)
Definition parent (inherit : option string) (this : FontData) : option (option loc) :=
  match truthy inherit with
  | Some i => (Some ∘ chars) <$> variant this !! i
  | None => Some None
  end.

(** The objects [defineChars] writes for the variant [vd]. *)
Definition written (vd : VariantData) : list loc := chars vd :: linked vd.

(** [Object.assign(l, cs)] for every [l] of [ls], in closed form. *)
Definition assign_all (ls : list loc) (cs : CharMap) (h : heap) : heap :=
  imap (λ l o, if decide (l ∈ ls) then assign_obj cs o else o) h.

(** ** Invariants of the heap *)

(** In the part [lo, hi) of the heap every prototype is an older object of
    the same part. *)
Definition older_protos (lo hi : nat) (h : heap) : Prop :=
  hi ≤ length h ∧
  ∀ l o p, lo ≤ l < hi → h !! l = Some o → proto o = Some p → lo ≤ p < l.

(** Every object the instance refers to lies in [lo, hi). *)
Definition within (lo hi : nat) (this : FontData) : Prop :=
  ∀ name vd, variant this !! name = Some vd →
    Forall (λ l, lo ≤ l < hi) (written vd).

(** No object the instance writes lies in [lo, hi). *)
Definition avoids (lo hi : nat) (this : FontData) : Prop :=
  ∀ name vd, variant this !! name = Some vd →
    Forall (λ l, ¬ (lo ≤ l < hi)) (written vd).

(** The state of one instance alone: its objects are in the heap and
    prototypes point to older objects. *)
Definition well_formed (this : FontData) (h : heap) : Prop :=
  older_protos 0 (length h) h ∧ within 0 (length h) this.

(** ** Sample data *)

(** An instance with no variant, two delimiters (the second with a
    [variants] array) and three size variants. *)
Definition delimiter_font : FontData :=
  mkFont ∅
    {[ 40%Z := mkDelim V None None None None;
       41%Z := mkDelim V None (Some [2; 0; 1]%Z) None None ]}
    ["a"; "b"; "c"]
    (@defaultParams FontData_class).

(** An instance with nothing in it. *)
Definition empty_font : FontData := fresh_instance FontData_class.

(** Two entries to tell apart. *)
Definition glyph_A : CharData := Char3 0.683%Q 0%Q 0.75%Q.
Definition glyph_B : CharData := Char5 0.686%Q 0%Q 0.869%Q 0%Q 0.16%Q.

(** Variants as the defaults make them, with a character in [normal] and
    one in [bold], the second defined before [bold-italic] links to [bold]. *)
Definition sample_calls : list mutation := [
  CreateVariant "normal" None None;
  CreateVariant "bold" (Some "normal") None;
  CreateVariant "italic" (Some "normal") None;
  DefineChars "normal" {[ 65%Z := glyph_A ]};
  DefineChars "bold" {[ 66%Z := glyph_B ]}
].

Definition sample_state : FontData * heap :=
  match apply_mutations sample_calls empty_font [] with
  | Returns s => s
  | Throws _ => (empty_font, [])
  end.

Definition sample_font : FontData := sample_state.1.
Definition sample_heap : heap := sample_state.2.

(** [fraktur] over [normal], then a later character in [normal]. *)
Definition fraktur_state : FontData * heap :=
  match createVariant "fraktur" (Some "normal") None sample_font sample_heap with
  | Returns s => s
  | Throws _ => sample_state
  end.

Definition fraktur_later_calls : list mutation := [
  DefineChars "normal" {[ 70%Z := glyph_B ]};
  DefineChars "fraktur" {[ 71%Z := glyph_A ]}
].

Definition fraktur_later_state : FontData * heap :=
  match apply_mutations fraktur_later_calls fraktur_state.1 fraktur_state.2 with
  | Returns s => s
  | Throws _ => fraktur_state
  end.

(** [bold-italic] over [italic] with a link to [bold], then later calls. *)
Definition bold_italic_state : FontData * heap :=
  match createVariant "bold-italic" (Some "italic") (Some "bold")
          sample_font sample_heap with
  | Returns s => s
  | Throws _ => sample_state
  end.

Definition bold_italic_later_calls : list mutation := [
  DefineChars "italic" {[ 66%Z := glyph_A; 67%Z := glyph_A ]};
  CreateVariant "script" (Some "normal") None;
  DefineChars "bold-italic" {[ 68%Z := glyph_B ]}
].

Definition bold_italic_later_state : FontData * heap :=
  match apply_mutations bold_italic_later_calls
          bold_italic_state.1 bold_italic_state.2 with
  | Returns s => s
  | Throws _ => bold_italic_state
  end.

(** The later definition in [bold]. *)
Definition bold_later_chars : CharMap := {[ 68%Z := glyph_A; 69%Z := glyph_A ]}.

Definition bold_defined_state : FontData * heap :=
  match defineChars "bold" bold_later_chars
          bold_italic_later_state.1 bold_italic_later_state.2 with
  | Returns s => s
  | Throws _ => bold_italic_later_state
  end.

(** A font class with default characters, a delimiter and size variants. *)
Definition sample_class : FontClass := {|
  defaultVariants := @defaultVariants FontData_class;
  defaultParams := @defaultParams FontData_class;
  defaultDelimiters := {[ 40%Z := mkDelim V None (Some [1; 0]%Z) None None ]};
  defaultChars := [("normal", {[ 65%Z := glyph_A ]}); ("bold", {[ 66%Z := glyph_B ]})];
  defaultSizeVariants := ["normal"; "bold"]
|}.

Definition two_fonts : world :=
  match construct_two sample_class [] with
  | Returns w => w
  | Throws _ => mkWorld empty_font empty_font []
  end.

Definition two_fonts_calls : list mutation := [
  DefineChars "bold" {[ 65%Z := glyph_B; 66%Z := glyph_A ]};
  CreateVariant "normal" None (Some "bold");
  DefineDelimiters {[ 40%Z := mkDelim H None None None None ]}
].

Definition two_fonts_later : world :=
  match calls_on First two_fonts_calls two_fonts with
  | Returns w => w
  | Throws _ => two_fonts
  end.

(** The heaps [h] and [h'] hold the same objects in [lo, hi). *)
Definition agree_on (lo hi : nat) (h h' : heap) : Prop :=
  ∀ l, lo ≤ l < hi → h' !! l = h !! l.

(** ** Further notions *)

(** The names a list of [[name, inherit?, link?]] entries registers. *)
Definition variant_names (vs : list (list string)) : list string :=
  map (λ v, default "undefined" (v !! 0)) vs.

(** [name] is a property that a registry object with the stored names
    [known] inherits. *)
Definition inherited_name (known : gset string) (name : string) : bool :=
  bool_decide (name ∈ object_prototype_keys)
  || (bool_decide ("__proto__" ∈ known)
      && bool_decide (name ∈ ["linked"; "chars"])).

(** The arguments [inherit] and [link] fit a registry with the names
    [known]: an [inherit] that is true as a condition is one of them, and a
    [link] that is true as a condition is one of them or names nothing, not
    even an inherited member. *)
Definition call_fits (known : gset string) (inherit link : option string) : bool :=
  match truthy inherit with
  | Some i => bool_decide (i ∈ known)
  | None => true
  end
  && match truthy link with
     | Some l => bool_decide (l ∈ known) || negb (inherited_name known l)
     | None => true
     end.

(** Every entry of [vs] fits the names of [known] and those that the
    earlier entries register. *)
Fixpoint entries_fit (known : gset string) (vs : list (list string)) : bool :=
  match vs with
  | [] => true
  | v :: rest =>
      call_fits known (v !! 1) (v !! 2)
      && entries_fit ({[ default "undefined" (v !! 0) ]} ∪ known) rest
  end.

(** Every name of the default characters is in [known]. *)
Definition chars_known (known : gset string) (cm : CharMapMap) : bool :=
  forallb (λ e, bool_decide (e.1 ∈ known)) cm.

(** The defaults of a class fit together: every default variant fits the
    earlier ones, and the default characters are for default variants. *)
Definition class_fits (CLASS : FontClass) : bool :=
  entries_fit ∅ (@defaultVariants CLASS)
  && chars_known (list_to_set (variant_names (@defaultVariants CLASS)))
       (@defaultChars CLASS).

(** The registry keeps the objects of its variants apart: no [chars] object
    is on a [linked] list, and two variants have different [chars] objects
    and no [linked] object in common. *)
Definition separated (this : FontData) : Prop :=
  ∀ N1 N2 vd1 vd2,
    variant this !! N1 = Some vd1 → variant this !! N2 = Some vd2 →
    (chars vd1 ∉ linked vd2) ∧
    (N1 ≠ N2 → chars vd1 ≠ chars vd2 ∧ ∀ l, l ∈ linked vd1 → l ∉ linked vd2).

(** The call defines characters in the variant [name]. *)
Definition defines (name : string) (m : mutation) : Prop :=
  match m with
  | DefineChars name' _ => name' = name
  | _ => False
  end.

(** A later definition in [normal]. *)
Definition normal_later_chars : CharMap := {[ 70%Z := glyph_B ]}.

Definition normal_defined_state : FontData * heap :=
  match defineChars "normal" normal_later_chars sample_font sample_heap with
  | Returns s => s
  | Throws _ => sample_state
  end.

(** [normal] defined after [bold-italic] and the later calls. *)
Definition normal_defined_later_state : FontData * heap :=
  match defineChars "normal" normal_later_chars
          bold_italic_later_state.1 bold_italic_later_state.2 with
  | Returns s => s
  | Throws _ => bold_italic_later_state
  end.

(** [bold-italic] defined after the later calls. *)
Definition bold_italic_defined_state : FontData * heap :=
  match defineChars "bold-italic" bold_later_chars
          bold_italic_later_state.1 bold_italic_later_state.2 with
  | Returns s => s
  | Throws _ => bold_italic_later_state
  end.

(** [script] over [italic], with a link the call does not take. *)
Definition script_state : FontData * heap :=
  match createVariant "script" (Some "italic") (Some "fraktur")
          sample_font sample_heap with
  | Returns s => s
  | Throws _ => sample_state
  end.

Definition script_later_calls : list mutation := [
  DefineChars "italic" {[ 67%Z := glyph_A ]};
  DefineChars "script" {[ 68%Z := glyph_B ]}
].

Definition script_later_state : FontData * heap :=
  match apply_mutations script_later_calls script_state.1 script_state.2 with
  | Returns s => s
  | Throws _ => script_state
  end.

(** [bold] registered again, with nothing to inherit from. *)
Definition bold_again_state : FontData * heap :=
  match createVariant "bold" None None sample_font sample_heap with
  | Returns s => s
  | Throws _ => sample_state
  end.

Definition bold_again_later_calls : list mutation := [
  DefineChars "normal" {[ 66%Z := glyph_A ]};
  CreateVariant "italic" (Some "bold") (Some "bold")
].

Definition bold_again_later_state : FontData * heap :=
  match apply_mutations bold_again_later_calls
          bold_again_state.1 bold_again_state.2 with
  | Returns s => s
  | Throws _ => bold_again_state
  end.

(** A list of variants where the second has a link that names a member the
    registry object inherits. *)
Definition broken_link_variants : list (list string) :=
  [["normal"]; ["bold"; "normal"; "toString"]].

(** A list of variants where the second inherits from one that comes later. *)
Definition misordered_variants : list (list string) :=
  [["normal"]; ["bold-italic"; "italic"; "bold"]; ["italic"; "normal"]].

(** An instance of the sample class, alone in the heap. *)
Definition sample_instance : FontData * heap :=
  match constructor sample_class [] with
  | Returns s => s
  | Throws _ => (empty_font, [])
  end.

(** The call defines an entry for the code [c] in the variant [name]. *)
Definition redefines (name : string) (c : Z) (m : mutation) : Prop :=
  match m with
  | DefineChars name' cs => name' = name ∧ is_Some (cs !! c)
  | _ => False
  end.

(** [fraktur] over [normal]; then [normal] is registered again and gets a
    character. *)
Definition normal_again_calls : list mutation := [
  CreateVariant "fraktur" (Some "normal") None;
  CreateVariant "normal" None None;
  DefineChars "normal" {[ 70%Z := glyph_B ]}
].

Definition normal_again_state : FontData * heap :=
  match apply_mutations normal_again_calls sample_font sample_heap with
  | Returns s => s
  | Throws _ => sample_state
  end.

(** [bold-italic] linked to [bold]; then [bold] is registered again and gets
    a character. *)
Definition bold_relinked_calls : list mutation := [
  CreateVariant "bold-italic" (Some "italic") (Some "bold");
  CreateVariant "bold" (Some "normal") None;
  DefineChars "bold" {[ 69%Z := glyph_A ]}
].

Definition bold_relinked_state : FontData * heap :=
  match apply_mutations bold_relinked_calls sample_font sample_heap with
  | Returns s => s
  | Throws _ => sample_state
  end.

(** A variant with the empty name and a character, and a variant created
    with the empty name as its link. *)
Definition empty_name_calls : list mutation := [
  CreateVariant "" None None;
  DefineChars "" {[ 65%Z := glyph_A ]};
  CreateVariant "script" None (Some "")
].

Definition empty_name_state : FontData * heap :=
  match apply_mutations empty_name_calls empty_font [] with
  | Returns s => s
  | Throws _ => (empty_font, [])
  end.

(** After [bold-italic] is linked to [bold]: a definition in [bold-italic],
    then definitions for the same code in [bold], [italic] and [normal]. *)
Definition own_first_chars : CharMap := {[ 5%Z := glyph_A ]}.

Definition own_first_state : FontData * heap :=
  match defineChars "bold-italic" own_first_chars
          bold_italic_state.1 bold_italic_state.2 with
  | Returns s => s
  | Throws _ => bold_italic_state
  end.

Definition own_first_later_calls : list mutation := [
  DefineChars "bold" {[ 5%Z := glyph_B ]};
  DefineChars "italic" {[ 5%Z := glyph_B ]};
  CreateVariant "script" (Some "bold-italic") (Some "bold");
  DefineChars "normal" {[ 5%Z := glyph_B ]};
  DefineChars "bold-italic" {[ 6%Z := glyph_B ]}
].

Definition own_first_later_state : FontData * heap :=
  match apply_mutations own_first_later_calls own_first_state.1 own_first_state.2 with
  | Returns s => s
  | Throws _ => own_first_state
  end.

(** * Properties *)

(** Solves [Forall (λ m, ¬ creates N m ...) ms] for a list of calls that is
    written out. *)
Ltac kept_registered :=
  repeat (apply List.Forall_cons; [simpl; intuition discriminate|]);
  apply List.Forall_nil.

(** The same for [Forall (λ m, ¬ creates N m ∧ ¬ redefines N c m) ms]. *)
Ltac kept_defined :=
  repeat (apply List.Forall_cons;
          [simpl; split;
           [intuition discriminate
           |first [tauto
                  |intros [Hname _]; discriminate Hname
                  |intros [_ [x Hx]]; vm_compute in Hx; discriminate Hx]]|]);
  apply List.Forall_nil.

(** ** Reading through the prototype chain *)

Lemma older_protos_lt lo hi h l : older_protos lo hi h → l < hi → l < length h.
Proof. intros [Hhi _] Hl. lia. Qed.

(** Enough fuel is enough: past [S l] the result does not change. *)
Lemma lookup_chain_fuel lo hi h n f1 :
  older_protos lo hi h →
  ∀ f2 l, lo ≤ l < hi → l < f1 → l < f2 →
    lookup_chain f1 h l n = lookup_chain f2 h l n.
Proof.
  intros Hh. induction f1 as [|f1 IH]; intros f2 l Hl H1 H2; [lia|].
  destruct f2 as [|f2]; [lia|]. simpl.
  destruct (h !! l) as [o|] eqn:Ho; [|done].
  destruct (own o !! n); [done|].
  destruct (proto o) as [p|] eqn:Hp; [|done].
  destruct Hh as [Hhi Hh]. specialize (Hh l o p Hl Ho Hp).
  apply IH; lia.
Qed.

(** The property read, one step at a time. *)
Lemma get_prop_unfold lo hi h l n :
  older_protos lo hi h → lo ≤ l < hi →
  get_prop h l n =
    match h !! l with
    | None => None
    | Some o =>
        match own o !! n with
        | Some x => Some x
        | None => match proto o with
                  | Some p => get_prop h p n
                  | None => None
                  end
        end
    end.
Proof.
  intros Hh Hl. unfold get_prop at 1. simpl.
  destruct (h !! l) as [o|] eqn:Ho; [|done].
  destruct (own o !! n); [done|].
  destruct (proto o) as [p|] eqn:Hp; [|done].
  pose proof Hh as [_ Hh']. specialize (Hh' l o p Hl Ho Hp).
  unfold get_prop. eapply lookup_chain_fuel; eauto; lia.
Qed.

Lemma get_prop_own h l o n x :
  h !! l = Some o → own o !! n = Some x → get_prop h l n = Some x.
Proof. intros Ho Hx. unfold get_prop. simpl. by rewrite Ho, Hx. Qed.

Lemma chain_from_fuel lo hi h f1 :
  older_protos lo hi h →
  ∀ f2 l, lo ≤ l < hi → l < f1 → l < f2 →
    chain_from f1 h l = chain_from f2 h l.
Proof.
  intros Hh. induction f1 as [|f1 IH]; intros f2 l Hl H1 H2; [lia|].
  destruct f2 as [|f2]; [lia|]. simpl.
  destruct (h !! l) as [o|] eqn:Ho; [|done].
  destruct (proto o) as [p|] eqn:Hp; [|done].
  destruct Hh as [Hhi Hh]. specialize (Hh l o p Hl Ho Hp).
  f_equal. apply IH; lia.
Qed.

Lemma proto_chain_unfold lo hi h l :
  older_protos lo hi h → lo ≤ l < hi →
  proto_chain h l =
    match h !! l with
    | None => []
    | Some o => l :: match proto o with
                     | Some p => proto_chain h p
                     | None => []
                     end
    end.
Proof.
  intros Hh Hl. unfold proto_chain at 1. simpl.
  destruct (h !! l) as [o|] eqn:Ho; [|done].
  destruct (proto o) as [p|] eqn:Hp; [|done].
  pose proof Hh as [_ Hh']. specialize (Hh' l o p Hl Ho Hp).
  f_equal. unfold proto_chain. eapply chain_from_fuel; eauto; lia.
Qed.

(** The chain of an object of [lo, hi) stays in [lo, hi). *)
Lemma proto_chain_within lo hi h l l' :
  older_protos lo hi h → lo ≤ l < hi → l' ∈ proto_chain h l → lo ≤ l' ≤ l.
Proof.
  intros Hh. revert l'. induction (lt_wf l) as [l _ IH]. intros l' Hl.
  rewrite (proto_chain_unfold lo hi) by done.
  destruct (h !! l) as [o|] eqn:Ho; [|by intros ?%elem_of_nil].
  intros [->|Hin]%elem_of_cons; [lia|].
  destruct (proto o) as [p|] eqn:Hp; [|by apply elem_of_nil in Hin].
  pose proof Hh as [_ Hh']. specialize (Hh' l o p Hl Ho Hp).
  specialize (IH p ltac:(lia) l' ltac:(lia) Hin). lia.
Qed.

(** A read returns the entry of the nearest object of the chain that has
    one. *)
Lemma get_prop_first_own lo hi h l n :
  older_protos lo hi h → lo ≤ l < hi →
  get_prop h l n = first_own h (proto_chain h l) n.
Proof.
  intros Hh. induction (lt_wf l) as [l _ IH]. intros Hl.
  rewrite (get_prop_unfold lo hi), (proto_chain_unfold lo hi) by done.
  destruct (h !! l) as [o|] eqn:Ho; [|done]. simpl. rewrite Ho. simpl.
  destruct (own o !! n); [done|].
  destruct (proto o) as [p|] eqn:Hp; [|done].
  pose proof Hh as [_ Hh']. specialize (Hh' l o p Hl Ho Hp).
  apply IH; lia.
Qed.

(** Two heaps that agree on [lo, hi) give the same reads there. *)
Lemma agree_on_refl lo hi h : agree_on lo hi h h.
Proof. by intros l _. Qed.

Lemma agree_on_trans lo hi h1 h2 h3 :
  agree_on lo hi h1 h2 → agree_on lo hi h2 h3 → agree_on lo hi h1 h3.
Proof. intros H12 H23 l Hl. rewrite H23, H12; done. Qed.

Lemma older_protos_agree lo hi h h' :
  older_protos lo hi h → agree_on lo hi h h' → hi ≤ length h' →
  older_protos lo hi h'.
Proof.
  intros [Hhi Hh] Hag Hlen. split; [done|].
  intros l o p Hl Ho Hp. rewrite Hag in Ho by done. eauto.
Qed.

Lemma get_prop_agree lo hi h h' l n :
  older_protos lo hi h → agree_on lo hi h h' → hi ≤ length h' →
  lo ≤ l < hi → get_prop h' l n = get_prop h l n.
Proof.
  intros Hh Hag Hlen. pose proof (older_protos_agree _ _ _ _ Hh Hag Hlen) as Hh'.
  induction (lt_wf l) as [l _ IH]. intros Hl.
  rewrite (get_prop_unfold lo hi h), (get_prop_unfold lo hi h') by done.
  rewrite Hag by done.
  destruct (h !! l) as [o|] eqn:Ho; [|done].
  destruct (own o !! n); [done|].
  destruct (proto o) as [p|] eqn:Hp; [|done].
  pose proof Hh as [_ Hh2]. specialize (Hh2 l o p Hl Ho Hp).
  apply IH; lia.
Qed.

(** ** What the methods do to the heap and to the registry *)

Lemma assign_obj_idemp cs o : assign_obj cs (assign_obj cs o) = assign_obj cs o.
Proof.
  unfold assign_obj. simpl. f_equal.
  by rewrite (assoc_L (∪)), (idemp_L (∪)).
Qed.

Lemma assign_all_lookup ls cs h l :
  assign_all ls cs h !! l =
    (λ o, if decide (l ∈ ls) then assign_obj cs o else o) <$> h !! l.
Proof. unfold assign_all. by rewrite list_lookup_imap. Qed.

Lemma assign_all_length ls cs h : length (assign_all ls cs h) = length h.
Proof. unfold assign_all. by rewrite length_imap. Qed.

Lemma assign_all_nil cs h : assign_all [] cs h = h.
Proof.
  apply list_eq. intros l. rewrite assign_all_lookup.
  by destruct (h !! l).
Qed.

Lemma assign_all_cons a ls cs h :
  assign_all ls cs (alter (assign_obj cs) a h) = assign_all (a :: ls) cs h.
Proof.
  apply list_eq. intros l. rewrite !assign_all_lookup.
  destruct (decide (a = l)) as [->|Hne].
  - rewrite list_lookup_alter_eq. destruct (h !! l) as [o|]; simpl; [|done].
    f_equal. destruct (decide (l ∈ l :: ls)) as [_|Hn]; [|exfalso; apply Hn; by left].
    destruct (decide (l ∈ ls)); by rewrite ?assign_obj_idemp.
  - rewrite list_lookup_alter_ne by done. destruct (h !! l) as [o|]; simpl; [|done].
    f_equal.
    destruct (decide (l ∈ ls)) as [Hin|Hin];
      destruct (decide (l ∈ a :: ls)) as [Hin'|Hin']; try done.
    + exfalso. apply Hin'. by right.
    + exfalso. apply elem_of_cons in Hin' as [->|?]; done.
Qed.

Lemma for_of_assign ls cs h :
  for_of ls (λ l, object_assign l cs) h = Returns (tt, assign_all ls cs h).
Proof.
  revert h. induction ls as [|a ls IH]; intros h; simpl.
  - unfold ret. by rewrite assign_all_nil.
  - unfold bind, object_assign at 1. rewrite IH. by rewrite assign_all_cons.
Qed.

(** [defineChars] in closed form. *)
Lemma defineChars_eq name cs this h vd :
  variant this !! name = Some vd →
  defineChars name cs this h = Returns (this, assign_all (written vd) cs h).
Proof.
  intros Hvd. unfold defineChars. rewrite Hvd.
  unfold bind, object_assign at 1. rewrite for_of_assign.
  unfold ret, written. by rewrite assign_all_cons.
Qed.

Lemma defineChars_throws name cs this h :
  variant this !! name = None → defineChars name cs this h = Throws TypeError.
Proof. intros Hvd. unfold defineChars. by rewrite Hvd. Qed.

Lemma defineChars_inv name cs this h this' h' :
  defineChars name cs this h = Returns (this', h') →
  ∃ vd, variant this !! name = Some vd ∧ this' = this ∧
        h' = assign_all (written vd) cs h.
Proof.
  intros Hd. destruct (variant this !! name) as [vd|] eqn:Hvd.
  - rewrite (defineChars_eq _ _ _ _ vd) in Hd by done.
    injection Hd as <- <-. eauto.
  - by rewrite defineChars_throws in Hd.
Qed.

(** [createVariant] in closed form. *)
Lemma new_chars_eq inherit this h :
  new_chars inherit this h =
    match parent inherit this with
    | Some p => Returns (length h, h ++ [mkObj ∅ p])
    | None => Throws TypeError
    end.
Proof.
  unfold new_chars, parent. destruct (truthy inherit) as [i|]; [|done].
  by destruct (variant this !! i).
Qed.

Lemma createVariant_eq name inherit link this h :
  createVariant name inherit link this h =
    match parent inherit this with
    | None => Throws TypeError
    | Some p =>
        match link_variant link this with
        | Some (l, vl) =>
            Returns
              (mkFont (<[name := mkVariant [] (S (length h))]>
                         (<[l := mkVariant (linked vl ++ [length h]) (chars vl)]>
                            (variant this)))
                      (delimiters this) (sizeVariants this) (params this),
               h ++ [mkObj (from_option own ∅ (h !! chars vl)) p;
                     mkObj ∅ (Some (length h))])
        | None =>
            if link_broken link this then Throws TypeError
            else
              Returns
                (mkFont (<[name := mkVariant [] (length h)]> (variant this))
                        (delimiters this) (sizeVariants this) (params this),
                 h ++ [mkObj ∅ p])
        end
    end.
Proof.
  unfold createVariant, bind. rewrite new_chars_eq.
  destruct (parent inherit this) as [p|]; [|done].
  destruct (link_variant link this) as [[l vl]|]; [|by destruct (link_broken link this)].
  unfold own_props, object_assign, object_create, ret.
  rewrite length_alter, length_app. simpl.
  replace (length h + 1) with (S (length h)) by lia.
  do 2 f_equal.
  rewrite <- (Nat.add_0_r (length h)) at 1.
  rewrite alter_app_r. simpl. rewrite <- app_assoc. simpl.
  do 3 f_equal. unfold assign_obj. simpl. f_equal.
  rewrite (right_id_L ∅ (∪)).
  destruct (decide (chars vl < length h)) as [Hlt|Hge].
  - by rewrite lookup_app_l.
  - rewrite (lookup_ge_None_2 h) by lia.
    destruct (decide (chars vl = length h)) as [->|Hne].
    + by rewrite list_lookup_middle.
    + rewrite lookup_ge_None_2; [done|]. rewrite length_app. simpl. lia.
Qed.

Lemma link_variant_Some link this l vl :
  link_variant link this = Some (l, vl) ↔
  truthy link = Some l ∧ variant this !! l = Some vl.
Proof.
  unfold link_variant, registry_get. destruct (truthy link) as [l'|]; simpl.
  - destruct (variant this !! l') as [vl'|] eqn:Hl; simpl; split.
    + intros [= -> ->]. done.
    + intros [[= ->] Hv]. rewrite Hl in Hv. by injection Hv as ->.
    + by destruct (inherited_key (variant this) l').
    + intros [[= ->] Hv]. by rewrite Hl in Hv.
  - split; [done|]. by intros [? _].
Qed.

Lemma link_variant_unregistered l this :
  variant this !! l = None → link_variant (Some l) this = None.
Proof.
  intros Hl. unfold link_variant, registry_get. simpl. case_decide; [done|]. simpl.
  rewrite Hl. by destruct (inherited_key (variant this) l).
Qed.

Lemma registry_get_Registered this name vd :
  registry_get this name = Registered vd ↔ variant this !! name = Some vd.
Proof.
  unfold registry_get. destruct (variant this !! name) as [vd'|]; split.
  - by intros [= ->].
  - by intros [= ->].
  - by destruct (inherited_key (variant this) name).
  - done.
Qed.


Lemma truthy_Some s : s ≠ "" → truthy (Some s) = Some s.
Proof. intros Hs. simpl. by rewrite decide_False. Qed.

Lemma parent_within lo hi inherit this p :
  within lo hi this → parent inherit this = Some (Some p) → lo ≤ p < hi.
Proof.
  intros Hw. unfold parent. destruct (truthy inherit) as [i|]; [|done].
  destruct (variant this !! i) as [vi|] eqn:Hi; [|done]. simpl. intros [= <-].
  specialize (Hw i vi Hi). by apply Forall_cons_1 in Hw as [? _].
Qed.

Lemma createVariant_inv name inherit link this h this' h' :
  createVariant name inherit link this h = Returns (this', h') →
  ∃ p, parent inherit this = Some p ∧
    delimiters this' = delimiters this ∧
    sizeVariants this' = sizeVariants this ∧
    params this' = params this ∧
    ((link_variant link this = None ∧
      h' = h ++ [mkObj ∅ p] ∧
      variant this' = <[name := mkVariant [] (length h)]> (variant this))
     ∨
     (∃ l vl, link_variant link this = Some (l, vl) ∧
      h' = h ++ [mkObj (from_option own ∅ (h !! chars vl)) p;
                 mkObj ∅ (Some (length h))] ∧
      variant this' =
        <[name := mkVariant [] (S (length h))]>
          (<[l := mkVariant (linked vl ++ [length h]) (chars vl)]> (variant this)))).
Proof.
  rewrite createVariant_eq. destruct (parent inherit this) as [p|]; [|done].
  destruct (link_variant link this) as [[l vl]|] eqn:Hl;
    [|destruct (link_broken link this); [done|]];
    intros [= <- <-]; exists p; repeat split; eauto 10.
Qed.

Lemma createVariant_not_broken name inherit link this h this' h' :
  createVariant name inherit link this h = Returns (this', h') →
  link_broken link this = false.
Proof.
  rewrite createVariant_eq. destruct (parent inherit this) as [p|]; [|done].
  destruct (link_variant link this) as [[l vl]|] eqn:Hl.
  - intros _. apply link_variant_Some in Hl as [Ht Hl].
    unfold link_broken, registry_get. by rewrite Ht, Hl.
  - by destruct (link_broken link this).
Qed.

(** Every call keeps the objects that were there, with their prototypes. *)
Lemma apply_mutation_protos m this h this' h' :
  apply_mutation m this h = Returns (this', h') →
  length h ≤ length h' ∧
  ∀ l o, h !! l = Some o → ∃ o', h' !! l = Some o' ∧ proto o' = proto o.
Proof.
  destruct m as [name inherit link|name cs|delims]; simpl.
  - intros (p & _ & _ & _ & _ & [(_ & -> & _)|(l & vl & _ & -> & _)])%createVariant_inv;
      (split; [rewrite length_app; lia|]); intros l' o Ho; exists o;
      (split; [|done]); rewrite lookup_app_l; eauto using lookup_lt_Some.
  - intros (vd & _ & -> & ->)%defineChars_inv. rewrite assign_all_length.
    split; [done|]. intros l o Ho. rewrite assign_all_lookup, Ho. simpl.
    eexists; split; [done|]. by case_decide.
  - intros [= <- <-]. eauto.
Qed.

(** A call of an instance that writes nothing in [lo, hi) leaves that part
    of the heap as it was, and the instance still writes nothing there. *)
Lemma apply_mutation_avoids lo hi m this h this' h' :
  avoids lo hi this → hi ≤ length h →
  apply_mutation m this h = Returns (this', h') →
  agree_on lo hi h h' ∧ avoids lo hi this' ∧ hi ≤ length h'.
Proof.
  intros Hav Hhi Hm.
  pose proof (apply_mutation_protos _ _ _ _ _ Hm) as [Hlen _].
  split; [|split; [|lia]].
  - destruct m as [name inherit link|name cs|delims]; simpl in Hm.
    + apply createVariant_inv in Hm
        as (p & _ & _ & _ & _ & [(_ & -> & _)|(l & vl & _ & -> & _)]);
        intros l' Hl'; apply lookup_app_l; lia.
    + apply defineChars_inv in Hm as (vd & Hvd & -> & ->).
      intros l Hl. rewrite assign_all_lookup.
      destruct (h !! l) as [o|]; simpl; [|done].
      rewrite decide_False; [done|]. intros Hin.
      specialize (Hav name vd Hvd). rewrite Forall_forall in Hav. by apply (Hav l).
    + injection Hm as <- <-. apply agree_on_refl.
  - destruct m as [name inherit link|name cs|delims]; simpl in Hm.
    + apply createVariant_inv in Hm
        as (p & _ & _ & _ & _ & [(_ & _ & Hreg)|(l & vl & Hl & _ & Hreg)]);
        intros N vd; rewrite Hreg.
      * intros [[_ <-]|[_ HN]]%lookup_insert_Some; [|by eapply Hav].
        apply Forall_singleton. simpl. lia.
      * apply link_variant_Some in Hl as [_ Hl].
        intros [[_ <-]|[_ [[_ <-]|[_ HN]]%lookup_insert_Some]]%lookup_insert_Some.
        -- apply Forall_singleton. simpl. lia.
        -- specialize (Hav l vl Hl). unfold written in *. simpl.
           rewrite app_comm_cons. apply Forall_app. split; [done|].
           apply Forall_singleton. lia.
        -- by eapply Hav.
    + apply defineChars_inv in Hm as (vd & _ & -> & _). done.
    + injection Hm as <- _. done.
Qed.

Lemma apply_mutations_avoids lo hi ms this h this' h' :
  avoids lo hi this → hi ≤ length h →
  apply_mutations ms this h = Returns (this', h') →
  agree_on lo hi h h' ∧ avoids lo hi this' ∧ hi ≤ length h'.
Proof.
  revert this h. induction ms as [|m ms IH]; intros this h Hav Hhi; simpl.
  - intros [= <- <-]. eauto using agree_on_refl.
  - unfold bind. destruct (apply_mutation m this h) as [[this1 h1]|] eqn:Hm; [|done].
    intros Hms.
    destruct (apply_mutation_avoids _ _ _ _ _ _ _ Hav Hhi Hm) as (Hag & Hav1 & Hhi1).
    destruct (IH _ _ Hav1 Hhi1 Hms) as (Hag' & Hav' & Hhi').
    eauto using agree_on_trans.
Qed.

(** A call of an instance whose objects are the heap from [lo] on keeps it
    so. *)
Lemma within_mono lo hi hi' this : within lo hi this → hi ≤ hi' → within lo hi' this.
Proof.
  intros Hw Hle name vd Hvd. eapply Forall_impl; [by eapply Hw|].
  simpl. intros. lia.
Qed.

Lemma apply_mutation_within lo m this h this' h' :
  lo ≤ length h → within lo (length h) this → older_protos lo (length h) h →
  apply_mutation m this h = Returns (this', h') →
  within lo (length h') this' ∧ older_protos lo (length h') h'.
Proof.
  intros Hlo Hw Hh Hm.
  destruct m as [name inherit link|name cs|delims]; simpl in Hm.
  - apply createVariant_inv in Hm
      as (p & Hp & _ & _ & _ & [(_ & -> & Hreg)|(l & vl & Hl & -> & Hreg)]).
    + rewrite length_app. simpl. split.
      * intros N vd. rewrite Hreg.
        intros [[_ <-]|[_ HN]]%lookup_insert_Some.
        -- apply Forall_singleton. simpl. lia.
        -- eapply within_mono; [done| |done]. lia.
      * split; [rewrite length_app; simpl; lia|].
        intros l' o q Hl' Ho Hq.
        destruct (decide (l' < length h)) as [Hlt|Hge].
        -- rewrite lookup_app_l in Ho by done.
           destruct Hh as [_ Hh]. eapply Hh; eauto. lia.
        -- assert (l' = length h) as -> by lia.
           rewrite list_lookup_middle in Ho by done. injection Ho as <-.
           simpl in Hq. subst p.
           pose proof (parent_within _ _ _ _ _ Hw Hp). lia.
    + rewrite length_app. simpl. apply link_variant_Some in Hl as [_ Hl]. split.
      * intros N vd. rewrite Hreg.
        intros [[_ <-]|[_ [[_ <-]|[_ HN]]%lookup_insert_Some]]%lookup_insert_Some.
        -- apply Forall_singleton. simpl. lia.
        -- specialize (Hw l vl Hl). unfold written in *. simpl.
           rewrite app_comm_cons. apply Forall_app. split.
           ++ eapply Forall_impl; [done|]. simpl. intros. lia.
           ++ apply Forall_singleton. lia.
        -- eapply within_mono; [done| |done]. lia.
      * split; [rewrite length_app; simpl; lia|].
        intros l' o q Hl' Ho Hq.
        destruct (decide (l' < length h)) as [Hlt|Hge].
        -- rewrite lookup_app_l in Ho by done.
           destruct Hh as [_ Hh]. eapply Hh; eauto. lia.
        -- rewrite lookup_app_r in Ho by lia.
           destruct (decide (l' = length h)) as [->|Hne].
           ++ rewrite Nat.sub_diag in Ho. injection Ho as <-. simpl in Hq. subst p.
              pose proof (parent_within _ _ _ _ _ Hw Hp). lia.
           ++ assert (l' - length h = 1) as Heq by lia. rewrite Heq in Ho.
              injection Ho as <-. simpl in Hq. injection Hq as <-. lia.
  - apply defineChars_inv in Hm as (vd & Hvd & -> & ->).
    rewrite assign_all_length. split; [done|].
    destruct Hh as [Hlen Hh]. split; [by rewrite assign_all_length|].
    intros l o q Hl Ho Hq. rewrite assign_all_lookup in Ho.
    destruct (h !! l) as [o0|] eqn:Ho0; [|done]. simpl in Ho. injection Ho as <-.
    eapply Hh; eauto. by case_decide.
  - injection Hm as <- <-. done.
Qed.

Lemma apply_mutations_within lo ms this h this' h' :
  lo ≤ length h → within lo (length h) this → older_protos lo (length h) h →
  apply_mutations ms this h = Returns (this', h') →
  within lo (length h') this' ∧ older_protos lo (length h') h' ∧
  length h ≤ length h'.
Proof.
  revert this h. induction ms as [|m ms IH]; intros this h Hlo Hw Hh; simpl.
  - intros [= <- <-]. eauto.
  - unfold bind. destruct (apply_mutation m this h) as [[this1 h1]|] eqn:Hm; [|done].
    intros Hms.
    destruct (apply_mutation_within _ _ _ _ _ _ Hlo Hw Hh Hm) as [Hw1 Hh1].
    pose proof (apply_mutation_protos _ _ _ _ _ Hm) as [Hlen _].
    destruct (IH this1 h1 ltac:(lia) Hw1 Hh1 Hms) as (? & ? & ?).
    split; [done|]. split; [done|lia].
Qed.

Lemma apply_mutation_well_formed m this h this' h' :
  well_formed this h → apply_mutation m this h = Returns (this', h') →
  well_formed this' h'.
Proof.
  intros [Hh Hw] Hm.
  destruct (apply_mutation_within 0 _ _ _ _ _ ltac:(lia) Hw Hh Hm). by split.
Qed.

Lemma apply_mutations_well_formed ms this h this' h' :
  well_formed this h → apply_mutations ms this h = Returns (this', h') →
  well_formed this' h'.
Proof.
  intros [Hh Hw] Hm.
  destruct (apply_mutations_within 0 _ _ _ _ _ ltac:(lia) Hw Hh Hm) as (? & ? & _).
  by split.
Qed.

(** ** Delimiters *)

(** C4.  For a registered delimiter [n] and a size index [i] in range,
    [getSizeVariant n i] returns [sizeVariants[i]] when the entry has no
    [variants] array and [sizeVariants[variants[i]]] when it has one.  With
    the size variants [a, b, c]: index 1 gives [b] without the array, and
    index 0 gives [c] with the array [2, 0, 1]. *)
Theorem getSizeVariant_resolves this n i d (Hd : delimiters this !! n = Some d) :
  (∀ name,
     variants d = None →
     array_get (sizeVariants this) i = Some name →
     getSizeVariant n i this = Returns (Some name)) ∧
  (∀ vs j name,
     variants d = Some vs →
     array_get vs i = Some j →
     array_get (sizeVariants this) j = Some name →
     getSizeVariant n i this = Returns (Some name)) ∧
  (sizeVariants this = ["a"; "b"; "c"] →
     (variants d = None → getSizeVariant n 1 this = Returns (Some "b")) ∧
     (variants d = Some [2; 0; 1]%Z → getSizeVariant n 0 this = Returns (Some "c"))).
Proof.
  unfold getSizeVariant, size_index. rewrite Hd. split; [|split].
  - intros name -> Hi. simpl. by rewrite Hi.
  - intros vs j name -> Hj Hname. rewrite Hj. simpl. by rewrite Hname.
  - intros ->. split; by intros ->.
Qed.

Lemma getSizeVariant_resolves_witness :
  getSizeVariant 40 1 delimiter_font = Returns (Some "b") ∧
  getSizeVariant 41 0 delimiter_font = Returns (Some "c").
Proof.
  split.
  - eapply (getSizeVariant_resolves delimiter_font 40 1); reflexivity.
  - eapply (getSizeVariant_resolves delimiter_font 41 0); reflexivity.
Defined.

(** C5, as the code has it.  [getSizeVariant] throws when the code is not
    a registered delimiter.  When the delimiter is registered and the index
    it resolves to has no size variant (or there is no such index), it
    returns [undefined] and does not throw. *)
Theorem getSizeVariant_failure this n i :
  (delimiters this !! n = None → getSizeVariant n i this = Throws TypeError) ∧
  (∀ d, delimiters this !! n = Some d →
        (∀ j, size_index d i = Some j → array_get (sizeVariants this) j = None) →
        getSizeVariant n i this = Returns None).
Proof.
  unfold getSizeVariant. split.
  - by intros ->.
  - intros d -> Hj. f_equal. destruct (size_index d i) as [j|]; simpl; eauto.
Qed.

Lemma getSizeVariant_failure_witness :
  getSizeVariant 39 0 delimiter_font = Throws TypeError ∧
  getSizeVariant 40 7 delimiter_font = Returns None.
Proof.
  split.
  - apply (getSizeVariant_failure delimiter_font 39 0). reflexivity.
  - eapply (getSizeVariant_failure delimiter_font 40 7); [reflexivity|].
    intros j [= <-]. reflexivity.
Defined.

(** C5 as stated fails: delimiter 40 is registered, index 7 is past the
    three size variants, and the call returns [undefined]. *)
Lemma getSizeVariant_out_of_range_returns :
  is_Some (delimiters delimiter_font !! 40%Z) ∧
  array_get (sizeVariants delimiter_font) 7 = None ∧
  getSizeVariant 40 7 delimiter_font = Returns None ∧
  getSizeVariant 40 7 delimiter_font ≠ Throws TypeError.
Proof. repeat split; [by eexists|done]. Qed.

(** C8.  After [defineDelimiters] with an entry [E] for the code [n],
    [getDelimiter n] returns [E] itself, so every field is as defined. *)
Theorem defineDelimiters_getDelimiter this n E :
  getDelimiter n (defineDelimiters {[ n := E ]} this) = Some E ∧
  (∀ delims, delims !! n = Some E →
     getDelimiter n (defineDelimiters delims this) = Some E) ∧
  (∀ E', getDelimiter n (defineDelimiters {[ n := E ]} this) = Some E' →
     dir E' = dir E ∧ sizes E' = sizes E ∧ variants E' = variants E ∧
     stretch E' = stretch E ∧ HDW E' = HDW E).
Proof.
  assert (∀ delims, delims !! n = Some E →
            getDelimiter n (defineDelimiters delims this) = Some E) as Hgen.
  { intros delims HE. unfold getDelimiter, defineDelimiters. simpl.
    by apply lookup_union_Some_l. }
  assert (getDelimiter n (defineDelimiters {[ n := E ]} this) = Some E) as Hone.
  { apply Hgen, lookup_singleton_eq. }
  split; [done|]. split; [done|].
  intros E'. rewrite Hone. by intros [= <-].
Qed.

Lemma defineDelimiters_getDelimiter_witness :
  getDelimiter 40
    (defineDelimiters {[ 40%Z := mkDelim H (Some [1%Q]) None (Some [1; 2; 3]%Z) None ]}
       delimiter_font)
  = Some (mkDelim H (Some [1%Q]) None (Some [1; 2; 3]%Z) None).
Proof.
  destruct (defineDelimiters_getDelimiter delimiter_font 40
              (mkDelim H (Some [1%Q]) None (Some [1; 2; 3]%Z) None)) as (_ & Hgen & _).
  apply Hgen. reflexivity.
Defined.

(** ** Variants across later calls *)

Lemma apply_mutations_protos ms this h this' h' :
  apply_mutations ms this h = Returns (this', h') →
  length h ≤ length h' ∧
  ∀ l o, h !! l = Some o → ∃ o', h' !! l = Some o' ∧ proto o' = proto o.
Proof.
  revert this h. induction ms as [|m ms IH]; intros this h; simpl.
  - intros [= <- <-]. eauto.
  - unfold bind. destruct (apply_mutation m this h) as [[this1 h1]|] eqn:Hm; [|done].
    intros Hms. apply apply_mutation_protos in Hm as [Hlen Hp].
    apply IH in Hms as [Hlen' Hp']. split; [lia|].
    intros l o Ho. destruct (Hp l o Ho) as (o1 & Ho1 & Hpo1).
    destruct (Hp' l o1 Ho1) as (o2 & Ho2 & Hpo2).
    exists o2. split; [done|congruence].
Qed.

(** A call that does not register [N] again keeps the [chars] of [N], and
    keeps what is on its [linked] list. *)
Lemma apply_mutation_registered N m this h this' h' vd :
  ¬ creates N m →
  apply_mutation m this h = Returns (this', h') →
  variant this !! N = Some vd →
  ∃ vd', variant this' !! N = Some vd' ∧ chars vd' = chars vd ∧
         ∀ l, l ∈ linked vd → l ∈ linked vd'.
Proof.
  intros Hc Hm HN. destruct m as [name inherit link|name cs|delims]; simpl in *.
  - apply createVariant_inv in Hm
      as (p & _ & _ & _ & _ & [(_ & _ & Hreg)|(l & vl & Hl & _ & Hreg)]);
      rewrite Hreg, lookup_insert_ne by done.
    + eauto.
    + apply link_variant_Some in Hl as [_ Hl].
      destruct (decide (l = N)) as [->|Hne].
      * rewrite lookup_insert_eq. eexists; split; [done|].
        assert (vl = vd) as -> by congruence. simpl. split; [done|].
        intros l Hin. apply elem_of_app. by left.
      * rewrite lookup_insert_ne by done. eauto.
  - apply defineChars_inv in Hm as (_ & _ & -> & _). eauto.
  - injection Hm as <- _. eauto.
Qed.

Lemma apply_mutations_registered N ms this h this' h' vd :
  Forall (λ m, ¬ creates N m) ms →
  apply_mutations ms this h = Returns (this', h') →
  variant this !! N = Some vd →
  ∃ vd', variant this' !! N = Some vd' ∧ chars vd' = chars vd ∧
         ∀ l, l ∈ linked vd → l ∈ linked vd'.
Proof.
  intros Hall. revert this h vd.
  induction Hall as [|m ms Hm Hall IH]; intros this h vd; simpl.
  - intros [= <- <-]. eauto.
  - unfold bind. destruct (apply_mutation m this h) as [[this1 h1]|] eqn:Hm1; [|done].
    intros Hms HN.
    destruct (apply_mutation_registered _ _ _ _ _ _ _ Hm Hm1 HN) as (vd1 & HN1 & Hc1 & Hl1).
    destruct (IH _ _ _ Hms HN1) as (vd2 & HN2 & Hc2 & Hl2).
    exists vd2. split; [done|]. split; [congruence|eauto].
Qed.

(** ** Failing and not finding *)

Lemma first_own_none h ls n :
  (∀ l o, l ∈ ls → h !! l = Some o → own o !! n = None) →
  first_own h ls n = None.
Proof.
  induction ls as [|l ls IH]; intros Hall; simpl; [done|].
  destruct (h !! l) as [o|] eqn:Ho; simpl.
  - rewrite (Hall l o) by (done || by left). apply IH. intros l' o' Hin. apply Hall. by right.
  - apply IH. intros l' o' Hin. apply Hall. by right.
Qed.

Lemma well_formed_chars this h name vd :
  well_formed this h → variant this !! name = Some vd → 0 ≤ chars vd < length h.
Proof.
  intros [_ Hw] Hvd. specialize (Hw name vd Hvd).
  by apply Forall_cons_1 in Hw as [? _].
Qed.

(** C6.  For a registered variant and a code that no object of its chain
    (own table, link snapshot, inherited chain) has, [getChar] returns
    [undefined]; for an unregistered name it throws. *)
Theorem getChar_not_found name c this h :
  (∀ vd, well_formed this h →
         variant this !! name = Some vd →
         (∀ l o, l ∈ proto_chain h (chars vd) → h !! l = Some o → own o !! c = None) →
         getChar name c this h = Returns None) ∧
  (variant this !! name = None → getChar name c this h = Throws TypeError).
Proof.
  unfold getChar. split.
  - intros vd Hwf Hvd Hnone. rewrite Hvd. f_equal.
    rewrite (get_prop_first_own 0 (length h)).
    + by apply first_own_none.
    + apply Hwf.
    + eapply well_formed_chars; eauto.
  - by intros ->.
Qed.

Lemma well_formed_fresh CLASS h :
  older_protos 0 (length h) h → well_formed (fresh_instance CLASS) h.
Proof. intros Hh. split; [done|]. by intros name vd Hvd. Qed.

Lemma older_protos_nil lo : older_protos lo 0 [].
Proof. split; [done|]. intros l o p Hl. lia. Qed.

Lemma sample_run :
  apply_mutations sample_calls empty_font [] = Returns (sample_font, sample_heap).
Proof. vm_compute. reflexivity. Qed.

Lemma sample_well_formed : well_formed sample_font sample_heap.
Proof.
  eapply apply_mutations_well_formed; [|apply sample_run].
  apply well_formed_fresh, older_protos_nil.
Qed.

Lemma getChar_not_found_witness :
  getChar "bold" 70 sample_font sample_heap = Returns None ∧
  getChar "script" 65 sample_font sample_heap = Throws TypeError.
Proof.
  split.
  - eapply (getChar_not_found "bold" 70 sample_font sample_heap).
    + apply sample_well_formed.
    + reflexivity.
    + intros l o Hin. vm_compute in Hin.
      apply elem_of_cons in Hin as [->|Hin]; [by intros [= <-]|].
      apply elem_of_cons in Hin as [->|Hin]; [by intros [= <-]|].
      by apply elem_of_nil in Hin.
  - apply (getChar_not_found "script" 65 sample_font sample_heap). reflexivity.
Defined.




(** ** Defining characters *)

Lemma assign_all_idemp ls cs h :
  assign_all ls cs (assign_all ls cs h) = assign_all ls cs h.
Proof.
  apply list_eq. intros l. rewrite !assign_all_lookup.
  destruct (h !! l) as [o|]; simpl; [|done].
  case_decide; by rewrite ?assign_obj_idemp.
Qed.

(** C9.  [defineChars V E] on a registered variant returns, and a second
    call with the same [E] returns the same instance and the same heap: every
    [getChar], in [V] and in any other variant, is as after the first call. *)
Theorem defineChars_idempotent V E this h vd (HV : variant this !! V = Some vd) :
  ∃ this1 h1,
    defineChars V E this h = Returns (this1, h1) ∧
    defineChars V E this1 h1 = Returns (this1, h1) ∧
    ∀ this2 h2, defineChars V E this1 h1 = Returns (this2, h2) →
      ∀ W c, getChar W c this2 h2 = getChar W c this1 h1.
Proof.
  exists this, (assign_all (written vd) E h).
  assert (defineChars V E this (assign_all (written vd) E h)
          = Returns (this, assign_all (written vd) E h)) as Hsecond.
  { rewrite (defineChars_eq _ _ _ _ vd) by done. by rewrite assign_all_idemp. }
  split; [by apply defineChars_eq|]. split; [done|].
  intros this2 h2. rewrite Hsecond. by intros [= <- <-].
Qed.

Lemma defineChars_idempotent_witness :
  ∃ this1 h1,
    defineChars "bold" {[ 66%Z := glyph_A ]} sample_font sample_heap
      = Returns (this1, h1) ∧
    defineChars "bold" {[ 66%Z := glyph_A ]} this1 h1 = Returns (this1, h1).
Proof.
  destruct (defineChars_idempotent "bold" {[ 66%Z := glyph_A ]}
              sample_font sample_heap (mkVariant [] 1) eq_refl)
    as (this1 & h1 & Hfirst & Hsecond & _).
  by exists this1, h1.
Defined.

(** ** A variant after its creation *)

Lemma parent_registered i vi this :
  i ≠ "" → variant this !! i = Some vi →
  parent (Some i) this = Some (Some (chars vi)).
Proof. intros Hi Hvi. unfold parent. rewrite truthy_Some by done. by rewrite Hvi. Qed.

Lemma link_variant_registered l vl this :
  l ≠ "" → variant this !! l = Some vl → link_variant (Some l) this = Some (l, vl).
Proof. intros Hl Hvl. apply link_variant_Some. by rewrite truthy_Some. Qed.

(** One step of [getChar]: the own table of the variant, or else the read
    from the prototype of its [chars]. *)
Lemma getChar_step name c this h vd o :
  well_formed this h → variant this !! name = Some vd → h !! chars vd = Some o →
  getChar name c this h =
    Returns (match own o !! c with
             | Some x => Some x
             | None => match proto o with
                       | Some p => get_prop h p c
                       | None => None
                       end
             end).
Proof.
  intros Hwf Hvd Ho. unfold getChar. rewrite Hvd. f_equal.
  rewrite (get_prop_unfold 0 (length h)), Ho; [done|apply Hwf|].
  eapply well_formed_chars; eauto.
Qed.

(** A variant created without a link, after later calls that do not register
    it again: its [chars] is the one object the call made, and the prototype
    of that object is the inherited [chars]. *)
Lemma created_plain_shape V inherit link this h this1 h1 ms this2 h2 :
  well_formed this h →
  link_variant link this = None →
  createVariant V inherit link this h = Returns (this1, h1) →
  apply_mutations ms this1 h1 = Returns (this2, h2) →
  Forall (λ m, ¬ creates V m) ms →
  well_formed this2 h2 ∧
  ∃ vd2 ot, variant this2 !! V = Some vd2 ∧ chars vd2 = length h ∧
            h2 !! length h = Some ot ∧ parent inherit this = Some (proto ot).
Proof.
  intros Hwf Hlink Hcreate Hms Hkeep.
  assert (well_formed this1 h1) as Hwf1
    by (eapply (apply_mutation_well_formed (CreateVariant V inherit link)); eauto).
  split; [by eapply apply_mutations_well_formed|].
  apply createVariant_inv in Hcreate
      as (p & Hp & _ & _ & _ & [(_ & -> & Hreg)|(l & vl & Hl & _ & _)]);
    [|congruence].
  assert (variant this1 !! V = Some (mkVariant [] (length h))) as HV1
    by (by rewrite Hreg, lookup_insert_eq).
  destruct (apply_mutations_registered V ms _ _ _ _ _ Hkeep Hms HV1)
    as (vd2 & HV2 & Hc & _).
  destruct (apply_mutations_protos _ _ _ _ _ Hms) as [_ Hprotos].
  destruct (Hprotos (length h) (mkObj ∅ p)) as (ot & Hot & Hpt);
    [by apply list_lookup_middle|].
  exists vd2, ot. simpl in *. rewrite Hpt. done.
Qed.

(** A variant created with a link, after later calls that do not register
    it again: its [chars] is the second object the call made, over the first,
    whose prototype is the inherited [chars].  The first object stays on the
    [linked] list of the link variant while that one is not registered
    again. *)
Lemma created_linked_shape V inherit link L vl this h this1 h1 ms this2 h2 :
  well_formed this h →
  link_variant link this = Some (L, vl) →
  createVariant V inherit link this h = Returns (this1, h1) →
  apply_mutations ms this1 h1 = Returns (this2, h2) →
  Forall (λ m, ¬ creates V m) ms →
  well_formed this2 h2 ∧
  ∃ vd2 ot ob,
    variant this2 !! V = Some vd2 ∧ chars vd2 = S (length h) ∧
    h2 !! S (length h) = Some ot ∧ proto ot = Some (length h) ∧
    h2 !! length h = Some ob ∧ parent inherit this = Some (proto ob) ∧
    (V ≠ L → Forall (λ m, ¬ creates L m) ms →
     ∃ vl2, variant this2 !! L = Some vl2 ∧ length h ∈ linked vl2).
Proof.
  intros Hwf Hlink Hcreate Hms Hkeep.
  assert (well_formed this1 h1) as Hwf1
    by (eapply (apply_mutation_well_formed (CreateVariant V inherit link)); eauto).
  split; [by eapply apply_mutations_well_formed|].
  apply createVariant_inv in Hcreate
      as (p & Hp & _ & _ & _ & [(Hl & _ & _)|(l & vl' & Hl & -> & Hreg)]);
    [congruence|].
  rewrite Hlink in Hl. injection Hl as <- <-.
  assert (variant this1 !! V = Some (mkVariant [] (S (length h)))) as HV1
    by (by rewrite Hreg, lookup_insert_eq).
  destruct (apply_mutations_registered V ms _ _ _ _ _ Hkeep Hms HV1)
    as (vd2 & HV2 & Hc & _).
  destruct (apply_mutations_protos _ _ _ _ _ Hms) as [_ Hprotos].
  destruct (Hprotos (S (length h)) (mkObj ∅ (Some (length h)))) as (ot & Hot & Hpt).
  { rewrite lookup_app_r by lia.
    by replace (S (length h) - length h) with 1 by lia. }
  destruct (Hprotos (length h) (mkObj (from_option own ∅ (h !! chars vl)) p))
    as (ob & Hob & Hpb); [by apply list_lookup_middle|].
  exists vd2, ot, ob. simpl in *. rewrite Hpb.
  repeat (split; [done|]).
  intros Hne HkeepL.
  assert (variant this1 !! L
          = Some (mkVariant (linked vl ++ [length h]) (chars vl))) as HL1
    by (by rewrite Hreg, lookup_insert_ne, lookup_insert_eq).
  destruct (apply_mutations_registered L ms _ _ _ _ _ HkeepL Hms HL1)
    as (vl2 & HL2 & _ & Hin).
  exists vl2. split; [done|]. apply Hin. simpl. apply elem_of_app. right. by left.
Qed.

(** The inherited variant [I], while not registered again, keeps the
    [chars] the new variant was made from. *)
Lemma inherited_kept V inherit link I vi this h this1 h1 ms this2 h2 :
  V ≠ I →
  variant this !! I = Some vi →
  createVariant V inherit link this h = Returns (this1, h1) →
  apply_mutations ms this1 h1 = Returns (this2, h2) →
  Forall (λ m, ¬ creates I m) ms →
  ∃ vi2, variant this2 !! I = Some vi2 ∧ chars vi2 = chars vi.
Proof.
  intros Hne HI Hcreate Hms Hkeep.
  assert (¬ creates I (CreateVariant V inherit link)) as Hnc by done.
  destruct (apply_mutation_registered I (CreateVariant V inherit link)
              this h this1 h1 vi Hnc Hcreate HI) as (vi1 & HI1 & Hc1 & _).
  destruct (apply_mutations_registered I ms this1 h1 this2 h2 vi1 Hkeep Hms HI1)
    as (vi2 & HI2 & Hc2 & _).
  exists vi2. split; [done|congruence].
Qed.

(** ** Inheriting *)

(** C3, as the code has it.  A variant [V] created with [inherit =
    "normal"] and no link, after
    any later calls that register neither [V] nor [normal] again: for a code
    [c] that [V]'s own table lacks, [getChar V c] is [getChar "normal" c];
    so when [normal] holds an entry for [c], [getChar V c] returns exactly
    that entry. *)
Theorem inherit_normal_falls_back this h V vn this1 h1 ms this2 h2 c
    (Hwf : well_formed this h)
    (Hnormal : variant this !! "normal" = Some vn)
    (Hcreate : createVariant V (Some "normal") None this h = Returns (this1, h1))
    (Hms : apply_mutations ms this1 h1 = Returns (this2, h2))
    (Hkeep : Forall (λ m, ¬ creates V m ∧ ¬ creates "normal" m) ms) :
  is_Some (own_table V this2 h2) ∧
  getChar V c this2 h2 =
    match own_entry V c this2 h2 with
    | Some x => Returns (Some x)
    | None => getChar "normal" c this2 h2
    end ∧
  (∀ x, own_entry V c this2 h2 = None →
        getChar "normal" c this2 h2 = Returns (Some x) →
        getChar V c this2 h2 = Returns (Some x)).
Proof.
  apply Forall_and in Hkeep as [HkeepV HkeepN].
  destruct (created_plain_shape V (Some "normal") None this h this1 h1 ms this2 h2)
    as (Hwf2 & vd2 & ot & HV2 & Hc & Hot & Hp); [done..|].
  rewrite (parent_registered _ vn) in Hp by done. injection Hp as Hp.
  rewrite <- Hc in Hot.
  assert (getChar V c this2 h2 =
            match own_entry V c this2 h2 with
            | Some x => Returns (Some x)
            | None => getChar "normal" c this2 h2
            end) as Heq.
  { unfold own_entry, own_table. rewrite HV2. simpl. rewrite Hot. simpl.
    destruct (decide (V = "normal")) as [->|Hne].
    - destruct (own ot !! c) as [x|] eqn:Hx; [|done].
      rewrite (getChar_step _ _ _ _ vd2 ot) by done. by rewrite Hx.
    - destruct (inherited_kept V (Some "normal") None "normal" vn
                  this h this1 h1 ms this2 h2) as (vn2 & HN2 & Hcn); [done..|].
      rewrite (getChar_step _ _ _ _ vd2 ot) by done.
      destruct (own ot !! c) as [x|]; [done|].
      rewrite <- Hp. unfold getChar. rewrite HN2. by rewrite Hcn. }
  split; [|split; [done|]].
  - unfold own_table. rewrite HV2. simpl. rewrite Hot. by eexists.
  - intros x Hown Hn. rewrite Heq, Hown. done.
Qed.

Lemma inherit_normal_falls_back_witness :
  getChar "fraktur" 70 fraktur_later_state.1 fraktur_later_state.2
    = Returns (Some glyph_B).
Proof.
  eapply (inherit_normal_falls_back sample_font sample_heap "fraktur"
            (mkVariant [] 0) fraktur_state.1 fraktur_state.2
            fraktur_later_calls fraktur_later_state.1 fraktur_later_state.2 70).
  - apply sample_well_formed.
  - reflexivity.
  - reflexivity.
  - reflexivity.
  - kept_registered.
  - reflexivity.
  - reflexivity.
Defined.

(** C3 as stated fails when [normal] is registered again: [fraktur] was
    created over the earlier [normal], and a character the new [normal] then
    gets is not one [fraktur] has. *)
Lemma inherit_normal_lost_after_reregistration :
  apply_mutations normal_again_calls sample_font sample_heap
    = Returns normal_again_state ∧
  getChar "normal" 70 normal_again_state.1 normal_again_state.2
    = Returns (Some glyph_B) ∧
  own_entry "fraktur" 70 normal_again_state.1 normal_again_state.2 = None ∧
  getChar "fraktur" 70 normal_again_state.1 normal_again_state.2 = Returns None.
Proof. repeat split; vm_compute; reflexivity. Qed.

(** ** Links *)

Lemma chain_from_assign_all fuel ls cs h l :
  chain_from fuel (assign_all ls cs h) l = chain_from fuel h l.
Proof.
  revert l. induction fuel as [|fuel IH]; intros l; simpl; [done|].
  rewrite assign_all_lookup. destruct (h !! l) as [o|]; simpl; [|done].
  f_equal. assert (proto (if decide (l ∈ ls) then assign_obj cs o else o) = proto o)
    as -> by (by case_decide).
  destruct (proto o); [apply IH|done].
Qed.

Lemma first_own_unwritten ls cs h chain n :
  Forall (λ l, l ∉ ls) chain →
  first_own (assign_all ls cs h) chain n = first_own h chain n.
Proof.
  induction 1 as [|l chain Hl _ IH]; simpl; [done|].
  rewrite assign_all_lookup. destruct (h !! l) as [o|]; simpl; [|done].
  rewrite decide_False by done. by rewrite IH.
Qed.

(** [defineChars] changes no read whose chain has no object it writes. *)
Lemma defineChars_frame L E this h this' h' vl W vw c :
  well_formed this h →
  defineChars L E this h = Returns (this', h') →
  variant this !! L = Some vl →
  variant this !! W = Some vw →
  Forall (λ l, l ∉ written vl) (proto_chain h (chars vw)) →
  getChar W c this' h' = getChar W c this h.
Proof.
  intros Hwf Hd HL HW Hchain.
  assert (well_formed this' h') as Hwf'
    by (eapply (apply_mutation_well_formed (DefineChars L E)); eauto).
  rewrite (defineChars_eq _ _ _ _ vl) in Hd by done. injection Hd as <- <-.
  unfold getChar. rewrite HW. f_equal.
  pose proof (well_formed_chars _ _ _ _ Hwf HW) as Hlt.
  rewrite (get_prop_first_own 0 (length (assign_all (written vl) E h)));
    [|apply Hwf'|by rewrite assign_all_length].
  rewrite (get_prop_first_own 0 (length h)); [|apply Hwf|done].
  unfold proto_chain at 1. rewrite chain_from_assign_all.
  by apply first_own_unwritten.
Qed.

(** [createVariant] leaves the objects that were there as they were. *)
Lemma createVariant_agree name inherit link this h this' h' :
  createVariant name inherit link this h = Returns (this', h') →
  agree_on 0 (length h) h h' ∧ length h ≤ length h'.
Proof.
  intros (p & _ & _ & _ & _ & [(_ & -> & _)|(l & vl & _ & -> & _)])%createVariant_inv;
    (split; [intros l' Hl'; apply lookup_app_l; lia|rewrite length_app; lia]).
Qed.

(** [createVariant V] changes no read in another variant. *)
Lemma createVariant_frame V inherit link this h this1 h1 W c :
  well_formed this h →
  createVariant V inherit link this h = Returns (this1, h1) →
  W ≠ V → is_Some (variant this !! W) →
  getChar W c this1 h1 = getChar W c this h.
Proof.
  intros Hwf Hcreate Hne [vw HW].
  assert (¬ creates W (CreateVariant V inherit link)) as Hnc by (simpl; congruence).
  destruct (apply_mutation_registered W (CreateVariant V inherit link)
              this h this1 h1 vw Hnc Hcreate HW) as (vw1 & HW1 & Hc & _).
  destruct (createVariant_agree _ _ _ _ _ _ _ Hcreate) as [Hag Hlen].
  unfold getChar. rewrite HW, HW1, Hc. f_equal.
  apply (get_prop_agree 0 (length h)); [apply Hwf|done|done|].
  eapply well_formed_chars; eauto.
Qed.

(** C1, as the code has it.  A variant [V] created with a link to the
    registered variant [L], the name [L] not empty.
    Every entry of [L]'s own table at that time is what [getChar V] returns
    for its code right after the call.  After any later calls that register
    neither [V] nor [L] again, an entry that [defineChars L E] defines is
    visible in [V]: [getChar V c] returns it, unless [V]'s own table has an
    entry for [c], which it then returns.  The call [createVariant] changes
    no [getChar] of another registered variant, and [defineChars L E]
    changes no [getChar] of a variant whose chain has neither [L]'s own
    object nor a snapshot linked to [L]. *)
Theorem createVariant_link_visible this h V inherit L vl this1 h1
    (Hwf : well_formed this h)
    (HL : L ≠ "")
    (HregL : variant this !! L = Some vl)
    (Hcreate : createVariant V inherit (Some L) this h = Returns (this1, h1)) :
  (∀ c x, own_entry L c this h = Some x →
          getChar V c this1 h1 = Returns (Some x)) ∧
  (∀ ms this2 h2 E this3 h3 c x,
     apply_mutations ms this1 h1 = Returns (this2, h2) →
     Forall (λ m, ¬ creates V m ∧ ¬ creates L m) ms →
     defineChars L E this2 h2 = Returns (this3, h3) →
     E !! c = Some x →
     getChar V c this3 h3 = Returns (Some (default x (own_entry V c this3 h3)))) ∧
  (∀ W c, W ≠ V → is_Some (variant this !! W) →
          getChar W c this1 h1 = getChar W c this h) ∧
  (∀ ms this2 h2 E this3 h3 vl2 W vw c,
     apply_mutations ms this1 h1 = Returns (this2, h2) →
     defineChars L E this2 h2 = Returns (this3, h3) →
     variant this2 !! L = Some vl2 →
     variant this2 !! W = Some vw →
     Forall (λ l, l ∉ written vl2) (proto_chain h2 (chars vw)) →
     getChar W c this3 h3 = getChar W c this2 h2).
Proof.
  pose proof (link_variant_registered L vl this HL HregL) as Hlink.
  assert (well_formed this1 h1) as Hwf1
    by (eapply (apply_mutation_well_formed (CreateVariant V inherit (Some L))); eauto).
  split; [|split; [|split]].
  - intros c x Hx. unfold own_entry, own_table in Hx. rewrite HregL in Hx. simpl in Hx.
    destruct (h !! chars vl) as [o|] eqn:Ho; [|done]. simpl in Hx.
    pose proof Hcreate as Hc.
    apply createVariant_inv in Hc
      as (p & _ & _ & _ & _ & [(Hl & _ & _)|(l & vl' & Hl & Hh1 & Hreg)]);
      [congruence|].
    rewrite Hlink in Hl. injection Hl as <- <-. rewrite Ho in Hh1. simpl in Hh1.
    assert (variant this1 !! V = Some (mkVariant [] (S (length h)))) as HV1
      by (by rewrite Hreg, lookup_insert_eq).
    assert (h1 !! S (length h) = Some (mkObj ∅ (Some (length h)))) as Hot.
    { rewrite Hh1, lookup_app_r by lia.
      by replace (S (length h) - length h) with 1 by lia. }
    assert (h1 !! length h = Some (mkObj (own o) p)) as Hob
      by (rewrite Hh1; by apply list_lookup_middle).
    rewrite (getChar_step _ _ _ _ _ _ Hwf1 HV1 Hot). simpl.
    rewrite lookup_empty. by rewrite (get_prop_own _ _ _ _ x Hob).
  - intros ms this2 h2 E this3 h3 c x Hms Hkeep Hd HE.
    apply Forall_and in Hkeep as [HkeepV HkeepL].
    destruct (created_linked_shape V inherit (Some L) L vl this h this1 h1 ms this2 h2)
      as (Hwf2 & vd2 & ot & ob & HV2 & Hc & Hot & Hpt & Hob & _ & Hsub); [done..|].
    assert (well_formed this3 h3) as Hwf3
      by (eapply (apply_mutation_well_formed (DefineChars L E)); eauto).
    apply defineChars_inv in Hd as (vl2 & HL2 & -> & ->).
    rewrite <- Hc in Hot.
    set (ot' := if decide (chars vd2 ∈ written vl2) then assign_obj E ot else ot).
    assert (assign_all (written vl2) E h2 !! chars vd2 = Some ot') as Hot'
      by (by rewrite assign_all_lookup, Hot).
    assert (proto ot' = Some (length h)) as Hpt'
      by (unfold ot'; by case_decide).
    unfold own_entry, own_table. rewrite HV2. simpl. rewrite Hot'. simpl.
    rewrite (getChar_step _ _ _ _ _ _ Hwf3 HV2 Hot'), Hpt'.
    destruct (own ot' !! c) as [y|] eqn:Hy; [done|]. simpl. f_equal.
    destruct (decide (V = L)) as [->|Hne].
    + exfalso. assert (vl2 = vd2) as -> by congruence.
      unfold ot' in Hy. rewrite decide_True in Hy by (by left). simpl in Hy.
      apply lookup_union_None in Hy as [Hy _]. congruence.
    + destruct (Hsub Hne HkeepL) as (vl2' & HL2' & Hin).
      assert (vl2' = vl2) as -> by congruence.
      apply (get_prop_own _ _ (assign_obj E ob)).
      * rewrite assign_all_lookup, Hob. simpl. rewrite decide_True; [done|]. by right.
      * simpl. by apply lookup_union_Some_l.
  - intros W c Hne HW. eapply createVariant_frame; eauto.
  - intros ms this2 h2 E this3 h3 vl2 W vw c Hms Hd HL2 HW Hchain.
    eapply defineChars_frame; eauto.
    by eapply apply_mutations_well_formed.
Qed.

Lemma createVariant_link_visible_witness :
  getChar "bold-italic" 66 bold_italic_state.1 bold_italic_state.2
    = Returns (Some glyph_B) ∧
  getChar "bold-italic" 69 bold_defined_state.1 bold_defined_state.2
    = Returns (Some glyph_A) ∧
  getChar "bold-italic" 68 bold_defined_state.1 bold_defined_state.2
    = Returns (Some glyph_B).
Proof.
  destruct (createVariant_link_visible sample_font sample_heap
              "bold-italic" (Some "italic") "bold" (mkVariant [] 1)
              bold_italic_state.1 bold_italic_state.2)
    as (Hnow & Hlater & _ & _).
  - apply sample_well_formed.
  - discriminate.
  - reflexivity.
  - reflexivity.
  - split; [|split].
    + apply Hnow. reflexivity.
    + apply (Hlater bold_italic_later_calls
               bold_italic_later_state.1 bold_italic_later_state.2
               bold_later_chars bold_defined_state.1 bold_defined_state.2 69%Z glyph_A);
        [reflexivity|kept_registered|reflexivity|reflexivity].
    + apply (Hlater bold_italic_later_calls
               bold_italic_later_state.1 bold_italic_later_state.2
               bold_later_chars bold_defined_state.1 bold_defined_state.2 68%Z glyph_A);
        [reflexivity|kept_registered|reflexivity|reflexivity].
Defined.

(** C1 as stated fails when [L] is registered again: [bold-italic] is linked
    to the earlier [bold], and a character the new [bold] then gets does not
    reach it.  It fails for a link variant with the empty name too: the empty
    string is false as a condition, so no link is made. *)
Lemma link_lost_after_reregistration :
  apply_mutations bold_relinked_calls sample_font sample_heap
    = Returns bold_relinked_state ∧
  getChar "bold" 69 bold_relinked_state.1 bold_relinked_state.2
    = Returns (Some glyph_A) ∧
  getChar "bold-italic" 69 bold_relinked_state.1 bold_relinked_state.2
    = Returns None ∧
  apply_mutations empty_name_calls empty_font [] = Returns empty_name_state ∧
  own_entry "" 65 empty_name_state.1 empty_name_state.2 = Some glyph_A ∧
  getChar "script" 65 empty_name_state.1 empty_name_state.2 = Returns None.
Proof. repeat split; vm_compute; reflexivity. Qed.

(** ** Two instances *)

Lemma apply_mutations_app ms1 ms2 this h :
  apply_mutations (ms1 ++ ms2) this h =
    bind (apply_mutations ms1 this) (apply_mutations ms2) h.
Proof.
  revert this h. induction ms1 as [|m ms1 IH]; intros this h; simpl; [done|].
  unfold bind at 1 2 3. destruct (apply_mutation m this h) as [[this1 h1]|]; [|done].
  apply IH.
Qed.

Lemma createVariants_calls vs this h :
  createVariants vs this h =
    apply_mutations
      (map (λ v, CreateVariant (default "undefined" (v !! 0)) (v !! 1) (v !! 2)) vs)
      this h.
Proof.
  revert this h. induction vs as [|v vs IH]; intros this h; simpl; [done|].
  unfold bind. destruct (createVariant _ _ _ this h) as [[this1 h1]|]; [|done].
  apply IH.
Qed.

Lemma defineAllChars_calls cm this h :
  defineAllChars cm this h =
    apply_mutations (map (λ '(name, cs), DefineChars name cs) cm) this h.
Proof.
  revert this h. induction cm as [|[name cs] cm IH]; intros this h; simpl; [done|].
  unfold bind. destruct (defineChars name cs this h) as [[this1 h1]|]; [|done].
  apply IH.
Qed.

(** The constructor is its calls, made on the fresh instance. *)
Lemma constructor_calls_eq CLASS h :
  constructor CLASS h =
    apply_mutations (constructor_calls CLASS) (fresh_instance CLASS) h.
Proof.
  unfold constructor, constructor_calls, fresh_instance.
  rewrite apply_mutations_app. unfold bind at 1 2.
  rewrite createVariants_calls.
  destruct (apply_mutations _ _ h) as [[this1 h1]|]; [|done].
  simpl. unfold bind, ret. apply defineAllChars_calls.
Qed.

(** What a constructor run leaves: the new instance has its objects in the
    part of the heap the run added, that part is closed under prototypes,
    and the older part is as it was. *)
Lemma constructor_region CLASS h this' h' :
  constructor CLASS h = Returns (this', h') →
  length h ≤ length h' ∧
  within (length h) (length h') this' ∧
  older_protos (length h) (length h') h' ∧
  agree_on 0 (length h) h h'.
Proof.
  rewrite constructor_calls_eq. intros Hrun.
  assert (within (length h) (length h) (fresh_instance CLASS)) as Hw0 by done.
  assert (older_protos (length h) (length h) h) as Hh0
    by (split; [done|intros; lia]).
  assert (avoids 0 (length h) (fresh_instance CLASS)) as Hav0 by done.
  destruct (apply_mutations_within _ _ _ _ _ _ (le_n _) Hw0 Hh0 Hrun)
    as (Hw & Hh & Hlen).
  destruct (apply_mutations_avoids _ _ _ _ _ _ _ Hav0 (le_n _) Hrun) as (Hag & _ & _).
  done.
Qed.

(** An instance whose objects are in a closed part of the heap reads the
    same in any heap that agrees on that part. *)
Lemma getChar_region lo hi this h h' name c :
  within lo hi this → older_protos lo hi h → agree_on lo hi h h' → hi ≤ length h' →
  getChar name c this h' = getChar name c this h.
Proof.
  intros Hw Hh Hag Hlen. unfold getChar.
  destruct (variant this !! name) as [vd|] eqn:Hvd; [|done]. f_equal.
  apply (get_prop_agree lo hi); try done.
  specialize (Hw name vd Hvd). by apply Forall_cons_1 in Hw as [? _].
Qed.

Lemma within_avoids lo hi lo' hi' this :
  within lo hi this → hi ≤ lo' ∨ hi' ≤ lo → avoids lo' hi' this.
Proof.
  intros Hw Hdisj name vd Hvd. eapply Forall_impl; [by eapply Hw|].
  simpl. intros l Hl. lia.
Qed.

Lemma agree_on_sub lo hi lo' hi' h h' :
  agree_on lo hi h h' → lo ≤ lo' → hi' ≤ hi → agree_on lo' hi' h h'.
Proof. intros Hag Hlo Hhi l Hl. apply Hag. lia. Qed.

Lemma calls_on_First ms w w' :
  calls_on First ms w = Returns w' →
  apply_mutations ms (first_font w) (shared w) = Returns (first_font w', shared w') ∧
  second_font w' = second_font w.
Proof.
  revert w. induction ms as [|m ms IH]; intros w; simpl.
  - by intros [= <-].
  - unfold bind.
    destruct (apply_mutation m (first_font w) (shared w)) as [[a h]|]; [|done].
    intros Hrest. by apply IH in Hrest as [? ?].
Qed.

Lemma calls_on_Second ms w w' :
  calls_on Second ms w = Returns w' →
  apply_mutations ms (second_font w) (shared w) = Returns (second_font w', shared w') ∧
  first_font w' = first_font w.
Proof.
  revert w. induction ms as [|m ms IH]; intros w; simpl.
  - by intros [= <-].
  - unfold bind.
    destruct (apply_mutation m (second_font w) (shared w)) as [[b h]|]; [|done].
    intros Hrest. by apply IH in Hrest as [? ?].
Qed.

(** The part of each of two instances made one after the other. *)
Lemma construct_two_regions CLASS h w :
  construct_two CLASS h = Returns w →
  ∃ n1,
    length h ≤ n1 ≤ length (shared w) ∧
    within (length h) n1 (first_font w) ∧
    older_protos (length h) n1 (shared w) ∧
    within n1 (length (shared w)) (second_font w) ∧
    older_protos n1 (length (shared w)) (shared w).
Proof.
  unfold construct_two.
  destruct (constructor CLASS h) as [[a h1]|] eqn:Ha; [|done].
  destruct (constructor CLASS h1) as [[b h2]|] eqn:Hb; [|done].
  intros [= <-]. simpl.
  apply constructor_region in Ha as (Hlen1 & Hw1 & Hh1 & _).
  apply constructor_region in Hb as (Hlen2 & Hw2 & Hh2 & Hag).
  exists (length h1). repeat (split; [done|]).
  split; [|done].
  eapply older_protos_agree; [done| |lia].
  eapply agree_on_sub; [done|lia|lia].
Qed.

(** C7.  Two instances constructed from the same class, in one heap.  After
    any sequence of [createVariant], [defineChars] and [defineDelimiters]
    calls on one of them, every query on the other ([getChar],
    [getDelimiter], [getSizeVariant], [getVariant], the parameters) gives
    what it gave before, and every object on the chain of a variant of the
    other is as before. *)
Theorem instances_independent CLASS h s ms w w'
    (Hnew : construct_two CLASS h = Returns w)
    (Hcalls : calls_on s ms w = Returns w') :
  (∀ name c,
     getChar name c (font_of (other s) w') (shared w')
       = getChar name c (font_of (other s) w) (shared w)) ∧
  (∀ n, getDelimiter n (font_of (other s) w') = getDelimiter n (font_of (other s) w)) ∧
  (∀ n i, getSizeVariant n i (font_of (other s) w')
            = getSizeVariant n i (font_of (other s) w)) ∧
  (∀ name, getVariant name (font_of (other s) w')
             = getVariant name (font_of (other s) w)) ∧
  params (font_of (other s) w') = params (font_of (other s) w) ∧
  (∀ name vd l,
     getVariant name (font_of (other s) w) = Registered vd →
     l ∈ proto_chain (shared w) (chars vd) →
     shared w' !! l = shared w !! l).
Proof.
  destruct (construct_two_regions _ _ _ Hnew) as (n1 & Hn1 & HwA & HhA & HwB & HhB).
  assert (∃ lo hi,
            font_of (other s) w' = font_of (other s) w ∧
            within lo hi (font_of (other s) w) ∧
            older_protos lo hi (shared w) ∧
            agree_on lo hi (shared w) (shared w') ∧
            hi ≤ length (shared w')) as (lo & hi & Hsame & Hw & Hh & Hag & Hlen).
  { destruct s; simpl.
    - apply calls_on_First in Hcalls as [Hrun Hsame].
      exists n1, (length (shared w)). repeat (split; [done|]).
      assert (avoids n1 (length (shared w)) (first_font w)) as Hav
        by (eapply within_avoids; [done|by left]).
      destruct (apply_mutations_avoids _ _ _ _ _ _ _ Hav (le_n _) Hrun)
        as (Hag & _ & Hlen).
      done.
    - apply calls_on_Second in Hcalls as [Hrun Hsame].
      exists (length h), n1. repeat (split; [done|]).
      assert (avoids (length h) n1 (second_font w)) as Hav
        by (eapply within_avoids; [done|by right]).
      assert (n1 ≤ length (shared w)) as Hle by lia.
      destruct (apply_mutations_avoids _ _ _ _ _ _ _ Hav Hle Hrun)
        as (Hag & _ & Hlen).
      done. }
  rewrite Hsame. repeat (split; [done|]). split.
  - intros name c. by apply (getChar_region lo hi).
  - repeat (split; [done|]).
    intros name vd l Hvd Hl. apply registry_get_Registered in Hvd.
    pose proof (Hw name vd Hvd) as Hc. apply Forall_cons_1 in Hc as [Hc _].
    pose proof (proto_chain_within _ _ _ _ _ Hh Hc Hl). apply Hag. lia.
Qed.

Lemma instances_independent_witness :
  getChar "bold-italic" 65 (second_font two_fonts_later) (shared two_fonts_later)
    = getChar "bold-italic" 65 (second_font two_fonts) (shared two_fonts) ∧
  getDelimiter 40 (second_font two_fonts_later)
    = getDelimiter 40 (second_font two_fonts).
Proof.
  destruct (instances_independent sample_class [] First two_fonts_calls
              two_fonts two_fonts_later) as (Hchar & Hdelim & _).
  - vm_compute. reflexivity.
  - vm_compute. reflexivity.
  - split; [apply (Hchar "bold-italic" 65%Z)|apply (Hdelim 40%Z)].
Defined.

(** * Further properties *)

(** ** [defineChars] *)

Lemma proto_chain_assign_all ls cs h l :
  proto_chain (assign_all ls cs h) l = proto_chain h l.
Proof. unfold proto_chain. apply chain_from_assign_all. Qed.

(** X1.  [defineChars name E] throws exactly when [name] is not registered,
    which is when [getVariant name] gives no variant record ([undefined], or
    a member the registry object inherits) and when [getChar name] throws.
    When it returns, the instance is the one it was called on, no object is
    added to the heap, and every object keeps its prototype, so every
    prototype chain is as before. *)
Theorem defineChars_outcome name E this h :
  ((∀ vd, getVariant name this ≠ Registered vd)
   ↔ defineChars name E this h = Throws TypeError) ∧
  (∀ c, getChar name c this h = Throws TypeError
        ↔ defineChars name E this h = Throws TypeError) ∧
  (∀ this' h', defineChars name E this h = Returns (this', h') →
     this' = this ∧ length h' = length h ∧
     (∀ l, proto <$> h' !! l = proto <$> h !! l) ∧
     (∀ l, proto_chain h' l = proto_chain h l)).
Proof.
  unfold getVariant, getChar. split; [|split].
  - split.
    + intros Hnot. apply defineChars_throws.
      destruct (variant this !! name) as [vd|] eqn:Hvd; [|done].
      exfalso. by apply (Hnot vd), registry_get_Registered.
    + destruct (variant this !! name) as [vd|] eqn:Hvd.
      * by rewrite (defineChars_eq _ _ _ _ vd).
      * intros _ vd Hvd'%registry_get_Registered. congruence.
  - intros c. destruct (variant this !! name) as [vd|] eqn:Hvd.
    + rewrite (defineChars_eq _ _ _ _ vd) by done. done.
    + by rewrite defineChars_throws.
  - intros this' h' (vd & Hvd & -> & ->)%defineChars_inv.
    split; [done|]. split; [apply assign_all_length|]. split.
    + intros l. rewrite assign_all_lookup. destruct (h !! l) as [o|]; simpl; [|done].
      by case_decide.
    + intros l. apply proto_chain_assign_all.
Qed.

Lemma defineChars_outcome_witness :
  defineChars "constructor" normal_later_chars sample_font sample_heap
    = Throws TypeError ∧
  length normal_defined_state.2 = length sample_heap.
Proof.
  destruct (defineChars_outcome "constructor" normal_later_chars sample_font sample_heap)
    as (Hthrow & _ & _).
  destruct (defineChars_outcome "normal" normal_later_chars sample_font sample_heap)
    as (_ & _ & Hret).
  split; [apply Hthrow; by intros vd [=]|].
  by destruct (Hret normal_defined_state.1 normal_defined_state.2 eq_refl) as (_ & Hlen & _).
Defined.

(** Reads of a code that the assigned map lacks are as before. *)
Lemma get_prop_assign_all_other ls cs h l c :
  older_protos 0 (length h) h → l < length h → cs !! c = None →
  get_prop (assign_all ls cs h) l c = get_prop h l c.
Proof.
  intros Hh Hl Hc.
  assert (older_protos 0 (length (assign_all ls cs h)) (assign_all ls cs h)) as Hh'.
  { rewrite assign_all_length. split; [by rewrite assign_all_length|].
    intros l' o p Hl' Ho Hp. rewrite assign_all_lookup in Ho.
    destruct (h !! l') as [o0|] eqn:Ho0; [|done]. simpl in Ho. injection Ho as <-.
    destruct Hh as [_ Hh]. eapply Hh; eauto. by case_decide. }
  induction (lt_wf l) as [l _ IH].
  rewrite (get_prop_unfold 0 (length (assign_all ls cs h))), (get_prop_unfold 0 (length h));
    [|done|lia|done|rewrite assign_all_length; lia].
  rewrite assign_all_lookup.
  destruct (h !! l) as [o|] eqn:Ho; simpl; [|done].
  assert (own (if decide (l ∈ ls) then assign_obj cs o else o) !! c = own o !! c) as ->.
  { case_decide; [|done]. simpl. rewrite lookup_union_r; done. }
  assert (proto (if decide (l ∈ ls) then assign_obj cs o else o) = proto o) as ->
    by (by case_decide).
  destruct (own o !! c); [done|].
  destruct (proto o) as [p|] eqn:Hp; [|done].
  destruct Hh as [Hlen Hh]. specialize (Hh l o p ltac:(lia) Ho Hp).
  apply IH; lia.
Qed.

(** X2.  [defineChars name E] changes [getChar W c] for no variant [W] when
    [E] has no entry for [c]. *)
Theorem defineChars_other_codes name E this h this' h' W c
    (Hwf : well_formed this h)
    (Hdef : defineChars name E this h = Returns (this', h'))
    (Hc : E !! c = None) :
  getChar W c this' h' = getChar W c this h.
Proof.
  apply defineChars_inv in Hdef as (vd & Hvd & -> & ->).
  unfold getChar. destruct (variant this !! W) as [vw|] eqn:HW; [|done]. f_equal.
  apply get_prop_assign_all_other; [apply Hwf| |done].
  eapply well_formed_chars; eauto.
Qed.

Lemma defineChars_other_codes_witness :
  getChar "bold" 65 normal_defined_state.1 normal_defined_state.2
    = getChar "bold" 65 sample_font sample_heap.
Proof.
  eapply (defineChars_other_codes "normal" normal_later_chars
            sample_font sample_heap).
  - apply sample_well_formed.
  - reflexivity.
  - reflexivity.
Defined.

Lemma assign_all_compose ls E1 E2 h :
  assign_all ls E2 (assign_all ls E1 h) = assign_all ls (E2 ∪ E1) h.
Proof.
  apply list_eq. intros l. rewrite !assign_all_lookup.
  destruct (h !! l) as [o|]; simpl; [|done].
  case_decide; [|done]. unfold assign_obj. simpl. by rewrite (assoc_L (∪)).
Qed.

Lemma assign_all_empty ls h : assign_all ls ∅ h = h.
Proof.
  apply list_eq. intros l. rewrite assign_all_lookup.
  destruct (h !! l) as [o|]; simpl; [|done]. case_decide; [|done].
  unfold assign_obj. rewrite (left_id_L ∅ (∪)). by destruct o.
Qed.

(** X3.  Two calls [defineChars V E1] and [defineChars V E2] in a row leave
    the instance and the heap that the single call [defineChars V (E2 over
    E1)] leaves: an entry of the later call replaces one of the earlier call
    for the same code, the other entries of both stay, over what [V]'s own
    table held.  A call with no entry changes nothing. *)
Theorem defineChars_compose V E1 E2 this h vd tbl
    (HV : variant this !! V = Some vd)
    (Htbl : own_table V this h = Some tbl) :
  (∃ h1 h2,
     defineChars V E1 this h = Returns (this, h1) ∧
     defineChars V E2 this h1 = Returns (this, h2) ∧
     defineChars V (E2 ∪ E1) this h = Returns (this, h2) ∧
     own_table V this h2 = Some (E2 ∪ (E1 ∪ tbl))) ∧
  defineChars V ∅ this h = Returns (this, h).
Proof.
  split; [|by rewrite (defineChars_eq _ _ _ _ vd), assign_all_empty].
  exists (assign_all (written vd) E1 h),
         (assign_all (written vd) E2 (assign_all (written vd) E1 h)).
  split; [by apply defineChars_eq|]. split; [by apply defineChars_eq|].
  split; [rewrite assign_all_compose; by apply defineChars_eq|].
  unfold own_table in *. rewrite HV in *. simpl in *.
  rewrite !assign_all_lookup.
  destruct (h !! chars vd) as [o|]; simpl in *; [|done].
  injection Htbl as <-.
  destruct (decide (chars vd ∈ written vd)) as [_|Hn]; [done|].
  exfalso. apply Hn. by left.
Qed.

Lemma defineChars_compose_witness :
  ∃ h1 h2,
    defineChars "normal" {[ 65%Z := glyph_B ]} sample_font sample_heap
      = Returns (sample_font, h1) ∧
    defineChars "normal" normal_later_chars sample_font h1
      = Returns (sample_font, h2) ∧
    defineChars "normal" (normal_later_chars ∪ {[ 65%Z := glyph_B ]})
      sample_font sample_heap = Returns (sample_font, h2).
Proof.
  destruct (defineChars_compose "normal" {[ 65%Z := glyph_B ]} normal_later_chars
              sample_font sample_heap (mkVariant [] 0) {[ 65%Z := glyph_A ]}
              eq_refl eq_refl)
    as ((h1 & h2 & H1 & H2 & H12 & _) & _).
  by exists h1, h2.
Defined.

(** ** Delimiters, further *)

(** X4.  [defineDelimiters] merges: afterwards a code of the given map has
    the given entry and every other code has the entry it had.  Two calls in
    a row are one call with the later map over the earlier one, a call with
    no entry changes nothing, and no call changes a [getChar], a variant, the
    size variants or the parameters. *)
Theorem defineDelimiters_merge D this :
  (∀ n, getDelimiter n (defineDelimiters D this)
          = match D !! n with
            | Some E => Some E
            | None => getDelimiter n this
            end) ∧
  (∀ D', defineDelimiters D' (defineDelimiters D this)
           = defineDelimiters (D' ∪ D) this) ∧
  defineDelimiters ∅ this = this ∧
  (∀ name c h, getChar name c (defineDelimiters D this) h = getChar name c this h) ∧
  (∀ name, getVariant name (defineDelimiters D this) = getVariant name this) ∧
  sizeVariants (defineDelimiters D this) = sizeVariants this ∧
  params (defineDelimiters D this) = params this.
Proof.
  split; [|split; [|split]].
  - intros n. unfold getDelimiter, defineDelimiters. simpl.
    rewrite lookup_union. destruct (D !! n), (delimiters this !! n); done.
  - intros D'. unfold defineDelimiters. simpl. by rewrite (assoc_L (∪)).
  - unfold defineDelimiters. rewrite (left_id_L ∅ (∪)). by destruct this.
  - done.
Qed.

(** X5.  For a registered delimiter [getSizeVariant] does not throw, and a
    name it returns is one of the size variants.  With an empty [variants]
    array, and for a negative index, it returns [undefined]. *)
Theorem getSizeVariant_in_list n i this d (Hd : delimiters this !! n = Some d) :
  (∃ r, getSizeVariant n i this = Returns r) ∧
  (∀ s, getSizeVariant n i this = Returns (Some s) → s ∈ sizeVariants this) ∧
  (variants d = Some [] → getSizeVariant n i this = Returns None) ∧
  ((i < 0)%Z → getSizeVariant n i this = Returns None).
Proof.
  assert (∀ A (a : list A) j x, array_get a j = Some x → x ∈ a) as Hin.
  { intros A a j x. unfold array_get. case_decide; [|done].
    intros Hx. by eapply list_elem_of_lookup_2. }
  assert (∀ A (a : list A) j, (j < 0)%Z → array_get a j = None) as Hneg.
  { intros A a j Hj. unfold array_get. by rewrite decide_False by lia. }
  unfold getSizeVariant. rewrite Hd. split; [by eexists|]. split; [|split].
  - intros s [= Hs]. destruct (size_index d i) as [j|]; [|done]. simpl in Hs. eauto.
  - intros Hv. f_equal. unfold size_index. rewrite Hv.
    unfold array_get. case_decide; [|done]. by rewrite lookup_nil.
  - intros Hi. f_equal. unfold size_index. destruct (variants d) as [vs|].
    + by rewrite Hneg.
    + simpl. by apply Hneg.
Qed.

Lemma getSizeVariant_in_list_witness :
  "c" ∈ sizeVariants delimiter_font ∧
  getSizeVariant 41 (-1) delimiter_font = Returns None.
Proof.
  destruct (getSizeVariant_in_list 41 0 delimiter_font
              (mkDelim V None (Some [2; 0; 1]%Z) None None) eq_refl)
    as (_ & Hin & _ & _).
  destruct (getSizeVariant_in_list 41 (-1) delimiter_font
              (mkDelim V None (Some [2; 0; 1]%Z) None None) eq_refl)
    as (_ & _ & _ & Hneg).
  split; [by apply Hin|by apply Hneg].
Defined.

(** ** The registry keeps its objects apart *)

(** The entries of the registry after [createVariant]: the new one has an
    empty [linked] list and a [chars] object made by the call; every other
    one has the [chars] it had, and its [linked] list, with one object made
    by the call at the end when it is the link variant. *)
Lemma createVariant_entries name inherit link this h this' h' N vd :
  createVariant name inherit link this h = Returns (this', h') →
  variant this' !! N = Some vd →
  (N = name ∧ linked vd = [] ∧ length h ≤ chars vd ∧
   (is_Some (link_variant link this) → chars vd = S (length h))) ∨
  (N ≠ name ∧ ∃ vd0, variant this !! N = Some vd0 ∧ chars vd = chars vd0 ∧
     (linked vd = linked vd0 ∨
      (∃ vl, link_variant link this = Some (N, vl)) ∧
      linked vd = linked vd0 ++ [length h])).
Proof.
  intros (p & _ & _ & _ & _ & [(Hl & _ & Hreg)|(l & vl & Hl & _ & Hreg)])%createVariant_inv;
    rewrite Hreg.
  - intros [[<- <-]|[Hne HN]]%lookup_insert_Some.
    + left. simpl. rewrite Hl. do 3 (split; [done|]). by intros [? ?].
    + right. split; [done|]. exists vd. eauto.
  - intros [[<- <-]|[Hne HN]]%lookup_insert_Some.
    + left. simpl. do 2 (split; [done|]). split; [lia|done].
    + right. split; [done|].
      pose proof Hl as [_ Hl']%link_variant_Some.
      apply lookup_insert_Some in HN as [[<- <-]|[Hne' HN]].
      * exists vl. simpl. split; [done|]. split; [done|]. right. eauto.
      * exists vd. eauto.
Qed.

Lemma createVariant_separated name inherit link this h this' h' :
  within 0 (length h) this → separated this →
  createVariant name inherit link this h = Returns (this', h') →
  separated this'.
Proof.
  intros Hw Hsep Hc N1 N2 vd1 vd2 H1 H2.
  assert (∀ N vd, variant this !! N = Some vd →
            chars vd < length h ∧ ∀ l, l ∈ linked vd → l < length h) as Hold.
  { intros N vd HN. specialize (Hw N vd HN). unfold written in Hw.
    apply Forall_cons_1 in Hw as [Hc0 Hl0]. split; [lia|].
    intros l Hl. rewrite Forall_forall in Hl0. specialize (Hl0 l Hl). lia. }
  destruct (createVariant_entries _ _ _ _ _ _ _ _ _ Hc H1)
    as [(-> & Hl1 & Hc1 & Hlk1)|(Hn1 & v1 & Hv1 & Hc1 & Hl1)];
  destruct (createVariant_entries _ _ _ _ _ _ _ _ _ Hc H2)
    as [(-> & Hl2 & Hc2 & Hlk2)|(Hn2 & v2 & Hv2 & Hc2 & Hl2)].
  - rewrite Hl2. split; [by intros ?%elem_of_nil|]. done.
  - destruct (Hold _ _ Hv2) as [Hb2 Hbl2]. split.
    + destruct Hl2 as [->|[[vl Hlk] ->]].
      * intros Hin. apply Hbl2 in Hin. lia.
      * intros [Hin|Heq%list_elem_of_singleton]%elem_of_app.
        -- apply Hbl2 in Hin. lia.
        -- assert (chars vd1 = S (length h)) by eauto. lia.
    + intros _. split; [lia|]. rewrite Hl1. by intros l ?%elem_of_nil.
  - destruct (Hold _ _ Hv1) as [Hb1 Hbl1]. rewrite Hl2.
    split; [by intros ?%elem_of_nil|]. intros _. split; [lia|].
    by intros l _ ?%elem_of_nil.
  - destruct (Hold _ _ Hv1) as [Hb1 Hbl1]. destruct (Hold _ _ Hv2) as [Hb2 Hbl2].
    destruct (Hsep _ _ _ _ Hv1 Hv2) as [Hsep1 Hsep2]. rewrite Hc1. split.
    + destruct Hl2 as [->|[_ ->]]; [done|].
      intros [Hin|Heq%list_elem_of_singleton]%elem_of_app; [done|lia].
    + intros Hne. destruct (Hsep2 Hne) as [Hcs Hls]. rewrite Hc2. split; [done|].
      intros l Hin1 Hin2.
      assert (l ∈ linked v1 ∨ l = length h ∧ ∃ vl, link_variant link this = Some (N1, vl))
        as Hcase1.
      { destruct Hl1 as [Hl1|[Hlk Hl1]]; rewrite Hl1 in Hin1; [by left|].
        apply elem_of_app in Hin1 as [?| ->%list_elem_of_singleton]; eauto. }
      assert (l ∈ linked v2 ∨ l = length h ∧ ∃ vl, link_variant link this = Some (N2, vl))
        as Hcase2.
      { destruct Hl2 as [Hl2|[Hlk Hl2]]; rewrite Hl2 in Hin2; [by left|].
        apply elem_of_app in Hin2 as [?| ->%list_elem_of_singleton]; eauto. }
      destruct Hcase1 as [Hi1|[-> [vl1 Hk1]]], Hcase2 as [Hi2|[He2 [vl2 Hk2]]].
      * by eapply Hls.
      * subst l. apply Hbl1 in Hi1. lia.
      * apply Hbl2 in Hi2. lia.
      * congruence.
Qed.

Lemma apply_mutation_separated m this h this' h' :
  within 0 (length h) this → separated this →
  apply_mutation m this h = Returns (this', h') →
  separated this'.
Proof.
  intros Hw Hsep Hm. destruct m as [name inherit link|name cs|delims]; simpl in Hm.
  - by eapply createVariant_separated.
  - by apply defineChars_inv in Hm as (_ & _ & -> & _).
  - by injection Hm as <- _.
Qed.

Lemma separated_fresh CLASS : separated (fresh_instance CLASS).
Proof. by intros N1 N2 vd1 vd2 H1. Qed.

Lemma apply_mutations_separated ms this h this' h' :
  well_formed this h → separated this →
  apply_mutations ms this h = Returns (this', h') →
  separated this'.
Proof.
  revert this h. induction ms as [|m ms IH]; intros this h Hwf Hsep; simpl.
  - by intros [= <- <-].
  - unfold bind. destruct (apply_mutation m this h) as [[this1 h1]|] eqn:Hm; [|done].
    intros Hms. eapply IH; [| |done].
    + by eapply apply_mutation_well_formed.
    + eapply apply_mutation_separated; [apply Hwf|done|done].
Qed.

Lemma sample_separated : separated sample_font.
Proof.
  eapply apply_mutations_separated; [| |apply sample_run].
  - apply well_formed_fresh, older_protos_nil.
  - apply separated_fresh.
Qed.

(** X6.  Every call keeps the instance in order, and so does every sequence
    of calls: the objects it refers to are in the heap, a prototype is older
    than the object that has it (no chain has a cycle), no [chars] object is
    on a [linked] list, and two variants have different [chars] objects and
    disjoint [linked] lists.  A fresh instance is in order. *)
Theorem calls_keep_order ms this h this' h'
    (Hwf : well_formed this h) (Hsep : separated this)
    (Hms : apply_mutations ms this h = Returns (this', h')) :
  well_formed this' h' ∧ separated this' ∧
  (∀ CLASS, separated (fresh_instance CLASS)) ∧
  (∀ CLASS, well_formed (fresh_instance CLASS) []).
Proof.
  split; [by eapply apply_mutations_well_formed|].
  split; [by eapply apply_mutations_separated|].
  split; [apply separated_fresh|].
  intros CLASS. apply well_formed_fresh, older_protos_nil.
Qed.

Lemma calls_keep_order_witness :
  well_formed sample_font sample_heap ∧ separated sample_font.
Proof.
  destruct (calls_keep_order sample_calls empty_font [] sample_font sample_heap)
    as (Hwf & Hsep & _).
  - apply well_formed_fresh, older_protos_nil.
  - apply separated_fresh.
  - apply sample_run.
  - by split.
Defined.

(** ** What [defineChars] leaves alone *)

Lemma assign_all_unwritten ls cs h l :
  l ∉ ls → assign_all ls cs h !! l = h !! l.
Proof.
  intros Hl. rewrite assign_all_lookup. destruct (h !! l); simpl; [|done].
  by rewrite decide_False.
Qed.

(** In a separated registry [defineChars L] does not write the [chars]
    object of another variant. *)
Lemma separated_chars_unwritten this L W vl vw :
  separated this → variant this !! L = Some vl → variant this !! W = Some vw →
  W ≠ L → chars vw ∉ written vl.
Proof.
  intros Hsep HL HW Hne. destruct (Hsep W L vw vl HW HL) as [Hnl Hd].
  destruct (Hd Hne) as [Hc _]. unfold written.
  intros [?|?]%elem_of_cons; done.
Qed.

(** X7.  [defineChars L E] writes the own table of [L] only: the own table
    of every other variant is as before.  (Its other writes go to the link
    snapshots of the variants linked to [L].) *)
Theorem defineChars_other_tables L E this h this' h' W
    (Hsep : separated this)
    (Hdef : defineChars L E this h = Returns (this', h'))
    (Hne : W ≠ L) :
  own_table W this' h' = own_table W this h.
Proof.
  apply defineChars_inv in Hdef as (vl & HL & -> & ->).
  unfold own_table. destruct (variant this !! W) as [vw|] eqn:HW; [|done]. simpl.
  rewrite assign_all_unwritten; [done|].
  by eapply separated_chars_unwritten.
Qed.

Lemma defineChars_other_tables_witness :
  own_table "bold" normal_defined_state.1 normal_defined_state.2
    = own_table "bold" sample_font sample_heap.
Proof.
  apply (defineChars_other_tables "normal" normal_later_chars sample_font sample_heap).
  - apply sample_separated.
  - reflexivity.
  - discriminate.
Defined.

(** X8.  Propagation stops at the first link.  For a variant [V] created
    with a link to [V1], after later calls that register neither again,
    [defineChars L E] for a third variant [L] changes neither [V]'s own table
    nor its link snapshot, even when [V1] is itself linked to [L]; and when
    [V] inherits from no variant, no [getChar V c] changes. *)
Theorem defineChars_elsewhere_keeps_snapshot
    this h V inherit V1 v1 this1 h1 ms this2 h2 L E this3 h3
    (Hwf : well_formed this h) (Hsep : separated this)
    (HV1 : V1 ≠ "") (Hreg : variant this !! V1 = Some v1)
    (Hcreate : createVariant V inherit (Some V1) this h = Returns (this1, h1))
    (Hms : apply_mutations ms this1 h1 = Returns (this2, h2))
    (Hkeep : Forall (λ m, ¬ creates V m ∧ ¬ creates V1 m) ms)
    (Hdef : defineChars L E this2 h2 = Returns (this3, h3))
    (HLV : L ≠ V) (HLV1 : L ≠ V1) (HVV1 : V ≠ V1) :
  own_table V this3 h3 = own_table V this2 h2 ∧
  link_snapshot V this3 h3 = link_snapshot V this2 h2 ∧
  (truthy inherit = None → ∀ c, getChar V c this3 h3 = getChar V c this2 h2).
Proof.
  apply Forall_and in Hkeep as [HkeepV HkeepV1].
  destruct (created_linked_shape V inherit (Some V1) V1 v1 this h this1 h1 ms this2 h2)
    as (Hwf2 & vd2 & ot & ob & HV2 & Hc & Hot & Hpt & Hob & Hp & Hsub);
    [done|by apply link_variant_registered|done..|].
  destruct (Hsub HVV1 HkeepV1) as (vl2 & HV12 & Hin).
  assert (separated this2) as Hsep2.
  { eapply (apply_mutations_separated (CreateVariant V inherit (Some V1) :: ms) this h);
      [done|done|]. simpl. unfold bind. by rewrite Hcreate. }
  assert (well_formed this3 h3) as Hwf3
    by (eapply (apply_mutation_well_formed (DefineChars L E)); eauto).
  apply defineChars_inv in Hdef as (vL & HL2 & -> & ->).
  assert (chars vd2 ∉ written vL) as Ht
    by (eapply separated_chars_unwritten; eauto).
  assert (length h ∉ written vL) as Hb.
  { destruct (Hsep2 L V1 vL vl2 HL2 HV12) as [Hnl Hd].
    destruct (Hd HLV1) as [_ Hdisj]. unfold written.
    intros [Heq|Hin2]%elem_of_cons.
    - apply Hnl. by rewrite <- Heq.
    - by apply (Hdisj (length h)). }
  rewrite <- Hc in Hot.
  assert (own_table V this2 (assign_all (written vL) E h2) = own_table V this2 h2)
    as Hown.
  { unfold own_table. rewrite HV2. simpl. by rewrite assign_all_unwritten. }
  assert (link_snapshot V this2 (assign_all (written vL) E h2)
          = link_snapshot V this2 h2) as Hsnap.
  { unfold link_snapshot, base_object. rewrite HV2. simpl.
    rewrite assign_all_unwritten, Hot by done. simpl. rewrite Hpt. simpl.
    by rewrite assign_all_unwritten. }
  split; [done|]. split; [done|].
  intros Hinh c. unfold parent in Hp. rewrite Hinh in Hp. injection Hp as Hp.
  assert (∀ g, well_formed this2 g → g !! chars vd2 = Some ot →
               g !! length h = Some ob →
               getChar V c this2 g
               = Returns (match own ot !! c with
                          | Some x => Some x
                          | None => own ob !! c
                          end)) as Hread.
  { intros g Hg Hgt Hgb. rewrite (getChar_step _ _ _ _ vd2 ot) by done.
    destruct (own ot !! c); [done|]. rewrite Hpt. f_equal.
    rewrite (get_prop_unfold 0 (length g)), Hgb; [|apply Hg|].
    - destruct (own ob !! c); [done|]. by rewrite <- Hp.
    - apply lookup_lt_Some in Hgb. lia. }
  rewrite (Hread h2), (Hread (assign_all (written vL) E h2)); try done;
    by rewrite assign_all_unwritten.
Qed.

Lemma defineChars_elsewhere_keeps_snapshot_witness :
  link_snapshot "bold-italic" normal_defined_later_state.1 normal_defined_later_state.2
    = link_snapshot "bold-italic" bold_italic_later_state.1 bold_italic_later_state.2.
Proof.
  eapply (defineChars_elsewhere_keeps_snapshot sample_font sample_heap
            "bold-italic" (Some "italic") "bold" (mkVariant [] 1)
            bold_italic_state.1 bold_italic_state.2 bold_italic_later_calls
            bold_italic_later_state.1 bold_italic_later_state.2
            "normal" normal_later_chars).
  - apply sample_well_formed.
  - apply sample_separated.
  - discriminate.
  - reflexivity.
  - reflexivity.
  - reflexivity.
  - kept_registered.
  - reflexivity.
  - discriminate.
  - discriminate.
  - discriminate.
Defined.

(** ** A later variant and the older ones *)

Lemma older_protos_sub lo hi hi' h :
  older_protos lo hi h → hi' ≤ hi → older_protos lo hi' h.
Proof.
  intros [Hlen Hh] Hle. split; [lia|]. intros l o p Hl. apply Hh. lia.
Qed.

(** The objects [defineChars N] writes stay above [n] while [N] is not
    registered again: what a later call adds to its [linked] list is new. *)
Lemma apply_mutation_written_above n N m this h this' h' vd :
  ¬ creates N m → n ≤ length h →
  apply_mutation m this h = Returns (this', h') →
  variant this !! N = Some vd → Forall (λ l, n ≤ l) (written vd) →
  ∃ vd', variant this' !! N = Some vd' ∧ Forall (λ l, n ≤ l) (written vd').
Proof.
  intros Hnc Hn Hm HN Habove.
  destruct (apply_mutation_registered _ _ _ _ _ _ _ Hnc Hm HN) as (vd' & HN' & Hc & _).
  exists vd'. split; [done|].
  destruct m as [name inherit link|name cs|delims]; simpl in *.
  - destruct (createVariant_entries _ _ _ _ _ _ _ _ _ Hm HN')
      as [(-> & _)|(_ & vd0 & Hvd0 & _ & Hl)]; [done|].
    assert (vd0 = vd) as -> by congruence.
    unfold written in *. apply Forall_cons_1 in Habove as [Ha Hb].
    apply Forall_cons. split; [by rewrite Hc|].
    destruct Hl as [->|[_ ->]]; [done|].
    apply Forall_app. split; [done|]. by apply Forall_singleton.
  - apply defineChars_inv in Hm as (_ & _ & -> & _).
    assert (vd' = vd) as -> by congruence. done.
  - injection Hm as <- _. simpl in HN'.
    assert (vd' = vd) as -> by congruence. done.
Qed.

Lemma apply_mutations_written_above n N ms this h this' h' vd :
  Forall (λ m, ¬ creates N m) ms → n ≤ length h →
  apply_mutations ms this h = Returns (this', h') →
  variant this !! N = Some vd → Forall (λ l, n ≤ l) (written vd) →
  ∃ vd', variant this' !! N = Some vd' ∧ Forall (λ l, n ≤ l) (written vd').
Proof.
  intros Hall. revert this h vd.
  induction Hall as [|m ms Hm Hall IH]; intros this h vd Hn; simpl.
  - intros [= <- <-] HN Habove. eauto.
  - unfold bind. destruct (apply_mutation m this h) as [[this1 h1]|] eqn:Hm1; [|done].
    intros Hms HN Habove.
    destruct (apply_mutation_written_above _ _ _ _ _ _ _ _ Hm Hn Hm1 HN Habove)
      as (vd1 & HN1 & Habove1).
    pose proof (apply_mutation_protos _ _ _ _ _ Hm1) as [Hlen _].
    apply (IH this1 h1 vd1); [lia|done|done|done].
Qed.

(** X9.  Definitions go from the link variant to the linked one, never
    back, and never from a variant to the one it inherits from.  For a
    variant [V] that [createVariant] has made, after later calls,
    [defineChars V E] changes no [getChar] of a variant [W] that was
    registered before [V] was made, while neither is registered again. *)
Theorem defineChars_keeps_older
    this h V inherit link this1 h1 ms this2 h2 E this3 h3 W c
    (Hwf : well_formed this h)
    (HW : is_Some (variant this !! W)) (Hne : W ≠ V)
    (Hcreate : createVariant V inherit link this h = Returns (this1, h1))
    (Hms : apply_mutations ms this1 h1 = Returns (this2, h2))
    (Hkeep : Forall (λ m, ¬ creates V m ∧ ¬ creates W m) ms)
    (Hdef : defineChars V E this2 h2 = Returns (this3, h3)) :
  getChar W c this3 h3 = getChar W c this2 h2.
Proof.
  destruct HW as [vw HW].
  apply Forall_and in Hkeep as [HkeepV HkeepW].
  assert (well_formed this1 h1) as Hwf1
    by (eapply (apply_mutation_well_formed (CreateVariant V inherit link)); eauto).
  assert (well_formed this2 h2) as Hwf2 by (by eapply apply_mutations_well_formed).
  destruct (createVariant_agree _ _ _ _ _ _ _ Hcreate) as [_ Hlen1].
  destruct (apply_mutations_protos _ _ _ _ _ Hms) as [Hlen2 _].
  destruct (inherited_kept V inherit link W vw this h this1 h1 ms this2 h2)
    as (vw2 & HW2 & Hcw); [done..|].
  assert (∃ vd1, variant this1 !! V = Some vd1 ∧ Forall (λ l, length h ≤ l) (written vd1))
    as (vd1 & HV1 & Habove1).
  { apply createVariant_inv in Hcreate
      as (p & _ & _ & _ & _ & [(_ & _ & Hreg)|(l & vl & _ & _ & Hreg)]);
      rewrite Hreg, lookup_insert_eq; eexists; (split; [done|]);
      apply Forall_singleton; simpl; lia. }
  destruct (apply_mutations_written_above _ _ _ _ _ _ _ _ HkeepV Hlen1 Hms HV1 Habove1)
    as (vd2 & HV2 & Habove2).
  apply defineChars_inv in Hdef as (vd2' & HV2' & -> & ->).
  assert (vd2' = vd2) as -> by congruence.
  unfold getChar. rewrite HW2. f_equal.
  apply (get_prop_agree 0 (length h)).
  - eapply older_protos_sub; [apply Hwf2|lia].
  - intros l Hl. apply assign_all_unwritten. intros Hin.
    rewrite Forall_forall in Habove2. specialize (Habove2 l Hin). lia.
  - rewrite assign_all_length. lia.
  - rewrite Hcw. eapply well_formed_chars; eauto.
Qed.

Lemma defineChars_keeps_older_witness :
  getChar "bold" 68 bold_italic_defined_state.1 bold_italic_defined_state.2
    = getChar "bold" 68 bold_italic_later_state.1 bold_italic_later_state.2.
Proof.
  eapply (defineChars_keeps_older sample_font sample_heap
            "bold-italic" (Some "italic") (Some "bold")
            bold_italic_state.1 bold_italic_state.2 bold_italic_later_calls
            bold_italic_later_state.1 bold_italic_later_state.2
            bold_later_chars).
  - apply sample_well_formed.
  - by eexists.
  - discriminate.
  - reflexivity.
  - reflexivity.
  - kept_registered.
  - reflexivity.
Defined.

(** ** Inheriting, in general *)

(** X10.  A variant [V] created with [inherit = I] and a link that the call
    does not take ([null], empty or unregistered), after later calls that
    register neither [V] nor [I] again: [getChar V c] is the entry of [V]'s
    own table when it has one, and else whatever [getChar I c] is. *)
Theorem inherit_falls_back this h V I vi link this1 h1 ms this2 h2 c
    (Hwf : well_formed this h)
    (HI : I ≠ "") (Hreg : variant this !! I = Some vi)
    (Hlink : link_variant link this = None)
    (Hcreate : createVariant V (Some I) link this h = Returns (this1, h1))
    (Hms : apply_mutations ms this1 h1 = Returns (this2, h2))
    (Hkeep : Forall (λ m, ¬ creates V m ∧ ¬ creates I m) ms) :
  getChar V c this2 h2 =
    match own_entry V c this2 h2 with
    | Some x => Returns (Some x)
    | None => getChar I c this2 h2
    end.
Proof.
  apply Forall_and in Hkeep as [HkeepV HkeepI].
  destruct (created_plain_shape V (Some I) link this h this1 h1 ms this2 h2)
    as (Hwf2 & vd2 & ot & HV2 & Hc & Hot & Hp); [done..|].
  rewrite (parent_registered _ vi) in Hp by done. injection Hp as Hp.
  rewrite <- Hc in Hot.
  unfold own_entry, own_table. rewrite HV2. simpl. rewrite Hot. simpl.
  destruct (decide (V = I)) as [->|Hne].
  - destruct (own ot !! c) as [x|] eqn:Hx; [|done].
    rewrite (getChar_step _ _ _ _ vd2 ot) by done. by rewrite Hx.
  - destruct (inherited_kept V (Some I) link I vi this h this1 h1 ms this2 h2)
      as (vi2 & HI2 & Hci); [done..|].
    rewrite (getChar_step _ _ _ _ vd2 ot) by done.
    destruct (own ot !! c) as [x|]; [done|].
    rewrite <- Hp. unfold getChar. rewrite HI2. by rewrite Hci.
Qed.

Lemma inherit_falls_back_witness :
  getChar "script" 67 script_later_state.1 script_later_state.2
    = getChar "italic" 67 script_later_state.1 script_later_state.2.
Proof.
  rewrite (inherit_falls_back sample_font sample_heap "script" "italic"
             (mkVariant [] 2) (Some "fraktur") script_state.1 script_state.2
             script_later_calls script_later_state.1 script_later_state.2 67%Z).
  - reflexivity.
  - apply sample_well_formed.
  - discriminate.
  - reflexivity.
  - reflexivity.
  - reflexivity.
  - reflexivity.
  - kept_registered.
Defined.

(** ** A variant with nothing to fall back on *)

(** An empty object with no prototype stays so under calls that neither
    register its variant again nor define characters in it. *)
Lemma empty_kept V ms this h this' h' :
  well_formed this h → separated this →
  (∃ vd, variant this !! V = Some vd ∧ h !! chars vd = Some (mkObj ∅ None)) →
  Forall (λ m, ¬ creates V m ∧ ¬ defines V m) ms →
  apply_mutations ms this h = Returns (this', h') →
  ∃ vd', variant this' !! V = Some vd' ∧ h' !! chars vd' = Some (mkObj ∅ None).
Proof.
  intros Hwf Hsep Hempty Hall. revert this h Hwf Hsep Hempty.
  induction Hall as [|m ms [Hnc Hnd] Hall IH]; intros this h Hwf Hsep (vd & HV & Ho); simpl.
  - intros [= <- <-]. eauto.
  - unfold bind. destruct (apply_mutation m this h) as [[this1 h1]|] eqn:Hm; [|done].
    intros Hms. eapply (IH this1 h1); [| | |done].
    + by eapply apply_mutation_well_formed.
    + eapply apply_mutation_separated; [apply Hwf|done|done].
    + destruct (apply_mutation_registered _ _ _ _ _ _ _ Hnc Hm HV) as (vd1 & HV1 & Hc & _).
      exists vd1. split; [done|]. rewrite Hc.
      destruct m as [name inherit link|name cs|delims]; simpl in *.
      * destruct (createVariant_agree _ _ _ _ _ _ _ Hm) as [Hag _].
        rewrite Hag; [done|]. apply lookup_lt_Some in Ho. lia.
      * apply defineChars_inv in Hm as (vl & HL & -> & ->).
        rewrite assign_all_unwritten; [done|].
        eapply separated_chars_unwritten; eauto.
      * by injection Hm as _ <-.
Qed.

(** X11.  [createVariant V] with an [inherit] that is [null] or empty and a
    link that is [null], empty or names nothing in the registry object
    always returns, and the variant it registers has no character at all,
    whatever [V] held before: [getChar V c] is [undefined] for every [c].  It
    stays so under later calls that neither register [V] again nor define
    characters in [V]. *)
Theorem createVariant_starts_empty this h V inherit link
    (Hinh : truthy inherit = None)
    (Hlink : link_variant link this = None)
    (Hbroken : link_broken link this = false) :
  ∃ this1 h1,
    createVariant V inherit link this h = Returns (this1, h1) ∧
    getVariant V this1 = Registered (mkVariant [] (length h)) ∧
    (∀ c, getChar V c this1 h1 = Returns None) ∧
    (∀ ms this2 h2 c,
       well_formed this h → separated this →
       apply_mutations ms this1 h1 = Returns (this2, h2) →
       Forall (λ m, ¬ creates V m ∧ ¬ defines V m) ms →
       getChar V c this2 h2 = Returns None).
Proof.
  set (this1 := mkFont (<[V := mkVariant [] (length h)]> (variant this))
                  (delimiters this) (sizeVariants this) (params this)).
  set (h1 := h ++ [mkObj ∅ None]).
  assert (createVariant V inherit link this h = Returns (this1, h1)) as Hcreate.
  { rewrite createVariant_eq. unfold parent. by rewrite Hinh, Hlink, Hbroken. }
  assert (variant this1 !! V = Some (mkVariant [] (length h))) as HV1
    by apply lookup_insert_eq.
  assert (h1 !! length h = Some (mkObj ∅ None)) as Ho1
    by (by apply list_lookup_middle).
  assert (∀ this' h' vd c, variant this' !! V = Some vd →
            h' !! chars vd = Some (mkObj ∅ None) →
            getChar V c this' h' = Returns None) as Hread.
  { intros this' h' vd c HV Ho. unfold getChar, get_prop. rewrite HV. simpl.
    rewrite Ho. simpl. by rewrite lookup_empty. }
  exists this1, h1. split; [exact Hcreate|].
  split; [by apply registry_get_Registered|]. split.
  - intros c. by eapply (Hread _ _ (mkVariant [] (length h))).
  - intros ms this2 h2 c Hwf Hsep Hms Hkeep.
    assert (well_formed this1 h1) as Hwf1
      by (eapply (apply_mutation_well_formed (CreateVariant V inherit link)); eauto).
    assert (separated this1) as Hsep1
      by (eapply (apply_mutation_separated (CreateVariant V inherit link));
          [apply Hwf|done|exact Hcreate]).
    destruct (empty_kept V ms this1 h1 this2 h2 Hwf1 Hsep1) as (vd2 & HV2 & Ho2);
      [by exists (mkVariant [] (length h))|done|done|].
    by eapply Hread.
Qed.

Lemma createVariant_starts_empty_witness :
  getChar "bold" 66 sample_font sample_heap = Returns (Some glyph_B) ∧
  getChar "bold" 66 bold_again_later_state.1 bold_again_later_state.2 = Returns None.
Proof.
  split; [reflexivity|].
  destruct (createVariant_starts_empty sample_font sample_heap "bold" None None
              eq_refl eq_refl eq_refl) as (this1 & h1 & Hcreate & _ & _ & Hlater).
  apply (Hlater bold_again_later_calls).
  - apply sample_well_formed.
  - apply sample_separated.
  - assert (Returns (this1, h1) = Returns bold_again_state) as [= -> ->]
      by (rewrite <- Hcreate; reflexivity).
    reflexivity.
  - kept_registered.
Defined.

(** ** [createVariants] and the constructor *)

Lemma createVariant_dom name inherit link this h this' h' :
  createVariant name inherit link this h = Returns (this', h') →
  dom (variant this') = {[ name ]} ∪ dom (variant this).
Proof.
  intros (p & _ & _ & _ & _ & [(_ & _ & Hreg)|(l & vl & Hl & _ & Hreg)])%createVariant_inv;
    rewrite Hreg.
  - by rewrite dom_insert_L.
  - apply link_variant_Some in Hl as [_ Hl].
    rewrite !dom_insert_L.
    assert (l ∈ dom (variant this)) as Hin by (apply elem_of_dom; eauto).
    f_equal. apply subseteq_union_1_L. by apply singleton_subseteq_l.
Qed.

Lemma createVariant_fields name inherit link this h this' h' :
  createVariant name inherit link this h = Returns (this', h') →
  delimiters this' = delimiters this ∧ sizeVariants this' = sizeVariants this ∧
  params this' = params this.
Proof. by intros (p & _ & ? & ? & ? & _)%createVariant_inv. Qed.

Lemma inherited_key_dom (registry : VariantMap) name :
  inherited_key registry name = inherited_name (dom registry) name.
Proof.
  unfold inherited_key, inherited_name. do 2 f_equal.
  apply bool_decide_ext. symmetry. apply elem_of_dom.
Qed.

Lemma parent_fits inherit this :
  match truthy inherit with
  | Some i => bool_decide (i ∈ dom (variant this))
  | None => true
  end = bool_decide (is_Some (parent inherit this)).
Proof.
  unfold parent. destruct (truthy inherit) as [i|].
  - apply bool_decide_ext. rewrite elem_of_dom.
    destruct (variant this !! i); simpl; split; intros [? ?]; by eauto.
  - symmetry. apply bool_decide_eq_true_2. by eexists.
Qed.

Lemma link_broken_fits link this :
  match truthy link with
  | Some l => bool_decide (l ∈ dom (variant this))
              || negb (inherited_name (dom (variant this)) l)
  | None => true
  end = negb (link_broken link this).
Proof.
  unfold link_broken, registry_get. destruct (truthy link) as [l|]; [|done].
  rewrite <- inherited_key_dom.
  destruct (variant this !! l) as [vl|] eqn:Hl.
  - rewrite bool_decide_eq_true_2; [done|]. apply elem_of_dom. eauto.
  - rewrite bool_decide_eq_false_2 by (by apply not_elem_of_dom). simpl.
    by destruct (inherited_key (variant this) l).
Qed.

(** [createVariant] returns exactly when its arguments fit the registry. *)
Lemma createVariant_cases name inherit link this h :
  (call_fits (dom (variant this)) inherit link = true →
   ∃ this' h', createVariant name inherit link this h = Returns (this', h')) ∧
  (call_fits (dom (variant this)) inherit link = false →
   createVariant name inherit link this h = Throws TypeError).
Proof.
  rewrite createVariant_eq. unfold call_fits.
  rewrite parent_fits, link_broken_fits.
  destruct (parent inherit this) as [p|].
  - rewrite bool_decide_eq_true_2 by (by eexists). simpl.
    destruct (link_variant link this) as [[l vl]|] eqn:Hl.
    + apply link_variant_Some in Hl as [Ht Hl].
      assert (link_broken link this = false) as ->
        by (unfold link_broken, registry_get; by rewrite Ht, Hl).
      simpl. split; [by eauto|done].
    + destruct (link_broken link this); simpl; split; by eauto.
  - rewrite bool_decide_eq_false_2 by (by intros [? ?]). simpl. by split.
Qed.

Lemma createVariants_cases vs this h :
  (entries_fit (dom (variant this)) vs = true →
   ∃ this' h',
     createVariants vs this h = Returns (this', h') ∧
     dom (variant this') = list_to_set (variant_names vs) ∪ dom (variant this) ∧
     delimiters this' = delimiters this ∧ sizeVariants this' = sizeVariants this ∧
     params this' = params this ∧
     length h ≤ length h') ∧
  (entries_fit (dom (variant this)) vs = false →
   createVariants vs this h = Throws TypeError).
Proof.
  revert this h. induction vs as [|v vs IH]; intros this h; simpl.
  - split; [|done]. intros _. exists this, h.
    split; [done|]. split; [by rewrite (left_id_L ∅ (∪))|done].
  - unfold bind. split.
    + intros [Hhead Hrest]%andb_true_iff.
      destruct (createVariant_cases (default "undefined" (v !! 0)) (v !! 1) (v !! 2)
                  this h) as [Hok _].
      destruct (Hok Hhead) as (this1 & h1 & Hc). rewrite Hc.
      pose proof (createVariant_dom _ _ _ _ _ _ _ Hc) as Hdom.
      pose proof (createVariant_fields _ _ _ _ _ _ _ Hc) as (Hd & Hs & Hp).
      pose proof (createVariant_agree _ _ _ _ _ _ _ Hc) as [_ Hlen].
      destruct (IH this1 h1) as [IHok _]. rewrite Hdom in IHok.
      destruct (IHok Hrest) as (this' & h' & Hr & Hdom' & Hd' & Hs' & Hp' & Hlen').
      exists this', h'. split; [done|].
      split; [by rewrite Hdom', (assoc_L (∪)), (comm_L (∪) (list_to_set _))|].
      split; [congruence|]. split; [congruence|]. split; [congruence|lia].
    + intros [Hhead|Hrest]%andb_false_iff.
      * destruct (createVariant_cases (default "undefined" (v !! 0)) (v !! 1) (v !! 2)
                    this h) as [_ Hbad].
        by rewrite (Hbad Hhead).
      * destruct (createVariant _ _ _ this h) as [[this1 h1]|] eqn:Hc; [|by destruct e].
        pose proof (createVariant_dom _ _ _ _ _ _ _ Hc) as Hdom.
        destruct (IH this1 h1) as [_ IHbad]. rewrite Hdom in IHbad. by apply IHbad.
Qed.

(** X12.  [createVariants] returns exactly when every entry fits what is
    registered before the call or by an earlier entry of the list: its
    [inherit], when true as a condition, names such a variant, and its
    [link], when true as a condition, names such a variant or nothing at all
    in the registry object (not a member it inherits).  Otherwise it throws
    (an entry cannot inherit from a later one).  When it returns, the stored
    names are the old ones and the names of the list, the other fields are
    as before, and the heap has only grown. *)
Theorem createVariants_outcome vs this h :
  (entries_fit (dom (variant this)) vs = true →
   ∃ this' h',
     createVariants vs this h = Returns (this', h') ∧
     dom (variant this') = list_to_set (variant_names vs) ∪ dom (variant this) ∧
     delimiters this' = delimiters this ∧ sizeVariants this' = sizeVariants this ∧
     params this' = params this ∧
     length h ≤ length h') ∧
  (entries_fit (dom (variant this)) vs = false →
   createVariants vs this h = Throws TypeError).
Proof. apply createVariants_cases. Qed.

Lemma createVariants_outcome_witness :
  (∃ this' h', createVariants (@defaultVariants FontData_class) empty_font []
                 = Returns (this', h')) ∧
  createVariants misordered_variants empty_font [] = Throws TypeError ∧
  createVariants broken_link_variants empty_font [] = Throws TypeError.
Proof.
  split; [|split].
  - destruct (createVariants_outcome (@defaultVariants FontData_class) empty_font [])
      as [Hok _].
    destruct (Hok eq_refl) as (this' & h' & Hr & _). eauto.
  - by apply (createVariants_outcome misordered_variants empty_font []).
  - by apply (createVariants_outcome broken_link_variants empty_font []).
Defined.

Lemma defineAllChars_cases cm this h :
  (chars_known (dom (variant this)) cm = true →
   ∃ h', defineAllChars cm this h = Returns (this, h') ∧ length h' = length h) ∧
  (chars_known (dom (variant this)) cm = false →
   defineAllChars cm this h = Throws TypeError).
Proof.
  revert h. induction cm as [|[name cs] cm IH]; intros h; simpl.
  - split; [|done]. intros _. by exists h.
  - unfold bind. split.
    + intros [Hhead Hrest]%andb_true_iff.
      apply bool_decide_eq_true in Hhead. simpl in Hhead.
      apply elem_of_dom in Hhead as [vd Hvd].
      rewrite (defineChars_eq _ _ _ _ vd) by done.
      destruct (IH (assign_all (written vd) cs h)) as [IHok _].
      destruct (IHok Hrest) as (h' & Hr & Hlen).
      exists h'. split; [done|]. by rewrite Hlen, assign_all_length.
    + intros [Hhead|Hrest]%andb_false_iff.
      * apply bool_decide_eq_false in Hhead. simpl in Hhead.
        apply not_elem_of_dom in Hhead. by rewrite defineChars_throws.
      * destruct (variant this !! name) as [vd|] eqn:Hvd.
        -- rewrite (defineChars_eq _ _ _ _ vd) by done.
           destruct (IH (assign_all (written vd) cs h)) as [_ IHbad]. by apply IHbad.
        -- by rewrite defineChars_throws.
Qed.

(** X13.  The constructor returns exactly when the defaults of the class
    fit together: each default variant inherits from none or from an earlier
    one, its link names an earlier one or nothing at all in the registry
    object, and the default characters are for default variants; otherwise
    it throws.  The instance it returns has the default parameters, the default
    size variants, the default delimiters and the default variants by name;
    the objects that were in the heap are as before. *)
Theorem constructor_outcome CLASS h :
  (class_fits CLASS = true →
   ∃ this' h',
     constructor CLASS h = Returns (this', h') ∧
     params this' = @defaultParams CLASS ∧
     sizeVariants this' = @defaultSizeVariants CLASS ∧
     (∀ n, getDelimiter n this' = @defaultDelimiters CLASS !! n) ∧
     dom (variant this') = list_to_set (variant_names (@defaultVariants CLASS)) ∧
     length h ≤ length h' ∧
     agree_on 0 (length h) h h') ∧
  (class_fits CLASS = false → constructor CLASS h = Throws TypeError).
Proof.
  set (this0 := mkFont ∅ ∅ (@defaultSizeVariants CLASS) (@defaultParams CLASS)).
  assert (dom (variant this0) = ∅) as Hdom0 by apply dom_empty_L.
  destruct (createVariants_cases (@defaultVariants CLASS) this0 h) as [Hvok Hvbad].
  rewrite Hdom0 in Hvok, Hvbad.
  unfold class_fits. split.
  - intros [Hv Hc]%andb_true_iff.
    destruct (Hvok Hv) as (this1 & h1 & Hr1 & Hdom1 & Hd1 & Hs1 & Hp1 & Hlen1).
    rewrite (right_id_L ∅ (∪)) in Hdom1.
    set (this2 := defineDelimiters (@defaultDelimiters CLASS) this1).
    destruct (defineAllChars_cases (@defaultChars CLASS) this2 h1) as [Hcok _].
    simpl in Hcok. rewrite Hdom1 in Hcok.
    destruct (Hcok Hc) as (h' & Hr2 & Hlen2).
    assert (constructor CLASS h = Returns (this2, h')) as Hctor.
    { unfold constructor, bind. fold this0. rewrite Hr1. exact Hr2. }
    exists this2, h'. split; [done|].
    destruct (constructor_region _ _ _ _ Hctor) as (Hlen & _ & _ & Hag).
    split; [done|]. split; [done|]. split.
    { intros n. unfold getDelimiter, this2. simpl. rewrite Hd1. simpl.
      by rewrite (right_id_L ∅ (∪)). }
    done.
  - intros [Hv|Hc]%andb_false_iff; unfold constructor, bind; fold this0.
    + by rewrite (Hvbad Hv).
    + destruct (createVariants _ this0 h) as [[this1 h1]|] eqn:Hr1; [|by destruct e].
      destruct (Bool.bool_dec (entries_fit ∅ (@defaultVariants CLASS)) true)
        as [Hv|Hv%Bool.not_true_is_false];
        [|specialize (Hvbad Hv); congruence].
      destruct (Hvok Hv) as (this1' & h1' & Hr1' & Hdom1 & _).
      assert (this1' = this1 ∧ h1' = h1) as [-> ->]
        by (split; congruence).
      rewrite (right_id_L ∅ (∪)) in Hdom1.
      destruct (defineAllChars_cases (@defaultChars CLASS)
                  (defineDelimiters (@defaultDelimiters CLASS) this1) h1) as [_ Hcbad].
      simpl in Hcbad. rewrite Hdom1 in Hcbad. by apply Hcbad.
Qed.

Lemma constructor_outcome_witness :
  (∃ this' h', constructor FontData_class [] = Returns (this', h')) ∧
  (∃ this' h', constructor sample_class [] = Returns (this', h') ∧
               getDelimiter 40 this' = Some (mkDelim V None (Some [1; 0]%Z) None None)).
Proof.
  split.
  - destruct (constructor_outcome FontData_class []) as [Hok _].
    destruct (Hok eq_refl) as (this' & h' & Hr & _). eauto.
  - destruct (constructor_outcome sample_class []) as [Hok _].
    destruct (Hok eq_refl) as (this' & h' & Hr & _ & _ & Hd & _).
    exists this', h'. split; [done|]. by rewrite Hd.
Defined.

(** ** The default characters *)

Lemma own_entry_getChar name c x this h :
  own_entry name c this h = Some x → getChar name c this h = Returns (Some x).
Proof.
  unfold own_entry, own_table, getChar.
  destruct (variant this !! name) as [vd|]; [|done]. simpl.
  destruct (h !! chars vd) as [o|] eqn:Ho; [|done]. simpl.
  intros Hx. f_equal. by eapply get_prop_own.
Qed.

Lemma defineAllChars_other_tables cm this h this' h' W :
  separated this →
  defineAllChars cm this h = Returns (this', h') →
  W ∉ cm.*1 →
  this' = this ∧ own_table W this' h' = own_table W this h.
Proof.
  intros Hsep. revert h. induction cm as [|[name cs] cm IH]; intros h; simpl.
  - by intros [= <- <-].
  - unfold bind. destruct (defineChars name cs this h) as [[this1 h1]|] eqn:Hd; [|done].
    intros Hrest Hnot. apply not_elem_of_cons in Hnot as [Hne Hnot].
    apply defineChars_inv in Hd as (vd & Hvd & -> & ->).
    destruct (IH _ Hrest Hnot) as [-> Hown]. split; [done|]. rewrite Hown.
    unfold own_table. destruct (variant this !! W) as [vw|] eqn:HW; [|done]. simpl.
    rewrite assign_all_unwritten; [done|].
    by eapply separated_chars_unwritten.
Qed.

Lemma defineAllChars_visible cm this h this' h' name cs c x :
  well_formed this h → separated this → NoDup cm.*1 →
  defineAllChars cm this h = Returns (this', h') →
  (name, cs) ∈ cm → cs !! c = Some x →
  own_entry name c this' h' = Some x.
Proof.
  intros Hwf Hsep. revert h Hwf. induction cm as [|[name0 cs0] cm IH]; intros h Hwf; simpl.
  - by intros _ _ ?%elem_of_nil.
  - intros [Hfresh Hnodup]%NoDup_cons. unfold bind.
    destruct (defineChars name0 cs0 this h) as [[this1 h1]|] eqn:Hd; [|done].
    intros Hrest Hin Hx.
    assert (well_formed this1 h1) as Hwf1
      by (eapply (apply_mutation_well_formed (DefineChars name0 cs0)); eauto).
    apply defineChars_inv in Hd as (vd & Hvd & -> & ->).
    apply elem_of_cons in Hin as [[= -> ->]|Hin]; [|by eapply IH].
    destruct (defineAllChars_other_tables _ _ _ _ _ name0 Hsep Hrest Hfresh) as [-> Hown].
    unfold own_entry. rewrite Hown. unfold own_table. rewrite Hvd. simpl.
    pose proof (well_formed_chars _ _ _ _ Hwf Hvd) as Hlt.
    destruct (lookup_lt_is_Some_2 h (chars vd)) as [o Ho]; [lia|].
    rewrite assign_all_lookup, Ho. simpl.
    rewrite decide_True by (by left). simpl. by apply lookup_union_Some_l.
Qed.

(** X14.  The constructor installs the default characters: when it returns,
    [getChar name c] returns the entry that the default characters give for
    [c] in the variant [name].  (The names of the default characters are the
    keys of an object, hence all different.) *)
Theorem constructor_default_chars CLASS h this' h' name cs c x
    (Hh : older_protos 0 (length h) h)
    (Hkeys : NoDup (@defaultChars CLASS).*1)
    (Hctor : constructor CLASS h = Returns (this', h'))
    (Hin : (name, cs) ∈ @defaultChars CLASS)
    (Hx : cs !! c = Some x) :
  getChar name c this' h' = Returns (Some x).
Proof.
  unfold constructor, bind in Hctor.
  destruct (createVariants _ _ h) as [[this1 h1]|] eqn:Hv; [|done].
  rewrite createVariants_calls in Hv.
  assert (well_formed this1 h1) as Hwf1.
  { eapply apply_mutations_well_formed; [|exact Hv]. split; [done|]. by intros N vd HN. }
  assert (separated this1) as Hsep1.
  { eapply apply_mutations_separated; [| |exact Hv].
    - split; [done|]. by intros N vd HN.
    - by intros N1 N2 vd1 vd2 H1. }
  apply own_entry_getChar.
  eapply (defineAllChars_visible (@defaultChars CLASS)
            (defineDelimiters (@defaultDelimiters CLASS) this1) h1); eauto.
Qed.

Lemma constructor_default_chars_witness :
  getChar "bold" 66 sample_instance.1 sample_instance.2 = Returns (Some glyph_B).
Proof.
  eapply (constructor_default_chars sample_class [] sample_instance.1 sample_instance.2
            "bold" {[ 66%Z := glyph_B ]}).
  - apply older_protos_nil.
  - repeat (apply NoDup_cons_2;
            [rewrite ?elem_of_cons, ?elem_of_nil; intuition discriminate|]).
    apply NoDup_nil_2.
  - vm_compute. reflexivity.
  - right. left.
  - reflexivity.
Defined.

(** ** What [createVariant] touches *)



(** * Precedence *)

(** An entry of a variant's own table stays under calls that neither
    register the variant again nor define its code in the variant. *)
Lemma own_entry_kept V c x ms this h this' h' :
  well_formed this h → separated this →
  own_entry V c this h = Some x →
  Forall (λ m, ¬ creates V m ∧ ¬ redefines V c m) ms →
  apply_mutations ms this h = Returns (this', h') →
  own_entry V c this' h' = Some x.
Proof.
  intros Hwf Hsep Hown Hall. revert this h Hwf Hsep Hown.
  induction Hall as [|m ms [Hnc Hnr] Hall IH]; intros this h Hwf Hsep Hown; simpl.
  - by intros [= <- <-].
  - unfold bind. destruct (apply_mutation m this h) as [[this1 h1]|] eqn:Hm; [|done].
    intros Hms. eapply (IH this1 h1); [| | |done].
    + by eapply apply_mutation_well_formed.
    + eapply apply_mutation_separated; [apply Hwf|done|done].
    + unfold own_entry, own_table in *.
      destruct (variant this !! V) as [vd|] eqn:HV; [|done]. simpl in Hown.
      destruct (h !! chars vd) as [o|] eqn:Ho; [|done]. simpl in Hown.
      destruct (apply_mutation_registered _ _ _ _ _ _ _ Hnc Hm HV) as (vd1 & HV1 & Hc & _).
      rewrite HV1. simpl. rewrite Hc.
      destruct m as [name inherit link|name cs|delims]; simpl in *.
      * destruct (createVariant_agree _ _ _ _ _ _ _ Hm) as [Hag _].
        rewrite Hag, Ho; [done|]. apply lookup_lt_Some in Ho. lia.
      * apply defineChars_inv in Hm as (vl & HL & -> & ->).
        rewrite assign_all_lookup, Ho. simpl.
        destruct (decide (name = V)) as [->|Hne].
        -- assert (cs !! c = None) as Hcs.
           { destruct (cs !! c) eqn:Hcs; [|done]. exfalso. apply Hnr. eauto. }
           case_decide; [|done]. simpl. by rewrite lookup_union_r.
        -- rewrite decide_False; [done|].
           eapply separated_chars_unwritten; eauto.
      * injection Hm as _ <-. by rewrite Ho.
Qed.

(** C2.  In a state that is in order (as every state is that calls on a
    fresh instance reach), for every registered variant and every code:
    [getChar] returns the entry of the nearest object of the prototype chain
    that has one, and the variant's own object is the first of the chain, so
    an entry of the own table wins.  For a variant [V] that [createVariant]
    has made, after any later calls that do not register [V] again, the
    chain is [V]'s own table, then the link snapshot when the link was
    taken, then the chain of the inherited variant, nearest ancestor first:
    [getChar V c] is the first entry in that order.  After [defineChars V E]
    with an entry [X] for [c], [getChar V c] returns [X] whatever the
    snapshot and the inherited chain hold, and keeps returning [X] after any
    later calls, in any order, that neither register [V] again nor define
    [c] in [V] again. *)
Theorem getChar_precedence this h
    (Hwf : well_formed this h) (Hsep : separated this) :
  (∀ name vd c, variant this !! name = Some vd →
     getChar name c this h = Returns (first_own h (proto_chain h (chars vd)) c) ∧
     ∃ rest, proto_chain h (chars vd) = chars vd :: rest) ∧
  (∀ V c x, own_entry V c this h = Some x → getChar V c this h = Returns (Some x)) ∧
  (∀ V inherit link this1 h1 ms this2 h2 c,
     createVariant V inherit link this h = Returns (this1, h1) →
     apply_mutations ms this1 h1 = Returns (this2, h2) →
     Forall (λ m, ¬ creates V m) ms →
     getChar V c this2 h2 =
       Returns
         (match own_entry V c this2 h2 with
          | Some x => Some x
          | None =>
              match (if link_variant link this is Some _
                     then snapshot_entry V c this2 h2 else None) with
              | Some x => Some x
              | None =>
                  match parent inherit this with
                  | Some (Some q) => get_prop h2 q c
                  | _ => None
                  end
              end
          end)) ∧
  (∀ V I L vi vl this1 h1 ms this2 h2 c,
     I ≠ "" → L ≠ "" →
     variant this !! I = Some vi → variant this !! L = Some vl →
     createVariant V (Some I) (Some L) this h = Returns (this1, h1) →
     apply_mutations ms this1 h1 = Returns (this2, h2) →
     Forall (λ m, ¬ creates V m ∧ ¬ creates I m) ms →
     is_Some (own_table V this2 h2) ∧
     is_Some (link_snapshot V this2 h2) ∧
     getChar V c this2 h2 =
       match own_entry V c this2 h2 with
       | Some x => Returns (Some x)
       | None =>
           match snapshot_entry V c this2 h2 with
           | Some x => Returns (Some x)
           | None => getChar I c this2 h2
           end
       end) ∧
  (∀ V vd E c X,
     variant this !! V = Some vd → E !! c = Some X →
     ∃ h1,
       defineChars V E this h = Returns (this, h1) ∧
       getChar V c this h1 = Returns (Some X) ∧
       ∀ ms this2 h2,
         apply_mutations ms this h1 = Returns (this2, h2) →
         Forall (λ m, ¬ creates V m ∧ ¬ redefines V c m) ms →
         getChar V c this2 h2 = Returns (Some X)).
Proof.
  split; [|split; [|split; [|split]]].
  - intros name vd c Hvd.
    pose proof (well_formed_chars _ _ _ _ Hwf Hvd) as Hlt.
    split.
    + unfold getChar. rewrite Hvd. f_equal.
      apply (get_prop_first_own 0 (length h)); [apply Hwf|done].
    + rewrite (proto_chain_unfold 0 (length h)); [|apply Hwf|done].
      destruct (lookup_lt_is_Some_2 h (chars vd)) as [o Ho]; [lia|].
      rewrite Ho. by eexists.
  - intros V c x. apply own_entry_getChar.
  - intros V inherit link this1 h1 ms this2 h2 c Hcreate Hms Hkeep.
    destruct (link_variant link this) as [[L vl]|] eqn:Hlink.
    + destruct (created_linked_shape V inherit link L vl this h this1 h1 ms this2 h2)
        as (Hwf2 & vd2 & ot & ob & HV2 & Hc & Hot & Hpt & Hob & Hp & _); [done..|].
      rewrite <- Hc in Hot. rewrite Hp.
      unfold own_entry, own_table, snapshot_entry, link_snapshot, base_object.
      rewrite HV2. simpl. rewrite Hot. simpl. rewrite Hpt. simpl. rewrite Hob. simpl.
      rewrite (getChar_step _ _ _ _ vd2 ot) by done. f_equal.
      destruct (own ot !! c) as [x|]; [done|]. rewrite Hpt.
      rewrite (get_prop_unfold 0 (length h2)), Hob; [|apply Hwf2|].
      * destruct (own ob !! c); [done|]. by destruct (proto ob).
      * apply lookup_lt_Some in Hob. lia.
    + destruct (created_plain_shape V inherit link this h this1 h1 ms this2 h2)
        as (Hwf2 & vd2 & ot & HV2 & Hc & Hot & Hp); [done..|].
      rewrite <- Hc in Hot. rewrite Hp.
      unfold own_entry, own_table. rewrite HV2. simpl. rewrite Hot. simpl.
      by rewrite (getChar_step _ _ _ _ vd2 ot).
  - intros V I L vi vl this1 h1 ms this2 h2 c HI HL HregI HregL Hcreate Hms Hkeep.
    apply Forall_and in Hkeep as [HkeepV HkeepI].
    destruct (created_linked_shape V (Some I) (Some L) L vl this h this1 h1 ms this2 h2)
      as (Hwf2 & vd2 & ot & ob & HV2 & Hc & Hot & Hpt & Hob & Hp & _);
      [done|by apply link_variant_registered|done..|].
    rewrite (parent_registered _ vi) in Hp by done. injection Hp as Hp.
    rewrite <- Hc in Hot.
    assert (own_table V this2 h2 = Some (own ot)) as Htop.
    { unfold own_table. rewrite HV2. simpl. by rewrite Hot. }
    assert (link_snapshot V this2 h2 = Some (own ob)) as Hsnap.
    { unfold link_snapshot, base_object. rewrite HV2. simpl. rewrite Hot. simpl.
      rewrite Hpt. simpl. by rewrite Hob. }
    split; [by rewrite Htop|]. split; [by rewrite Hsnap|].
    unfold own_entry, snapshot_entry. rewrite Htop, Hsnap. simpl.
    destruct (own ot !! c) as [x|] eqn:Hx.
    { rewrite (getChar_step _ _ _ _ vd2 ot) by done. by rewrite Hx. }
    destruct (own ob !! c) as [y|] eqn:Hy.
    { rewrite (getChar_step _ _ _ _ vd2 ot) by done. rewrite Hx, Hpt.
      by rewrite (get_prop_own _ _ ob _ y). }
    destruct (decide (V = I)) as [->|Hne]; [done|].
    destruct (inherited_kept V (Some I) (Some L) I vi this h this1 h1 ms this2 h2)
      as (vi2 & HI2 & Hci); [done..|].
    rewrite (getChar_step _ _ _ _ vd2 ot) by done. rewrite Hx, Hpt.
    rewrite (get_prop_unfold 0 (length h2)), Hob, Hy, <- Hp.
    + unfold getChar. rewrite HI2. by rewrite Hci.
    + apply Hwf2.
    + apply lookup_lt_Some in Hob. lia.
  - intros V vd E c X HV HX.
    set (h1 := assign_all (written vd) E h).
    assert (defineChars V E this h = Returns (this, h1)) as Hdef
      by (by apply defineChars_eq).
    assert (well_formed this h1) as Hwf1
      by (eapply (apply_mutation_well_formed (DefineChars V E)); eauto).
    assert (own_entry V c this h1 = Some X) as Hown.
    { unfold own_entry, own_table. rewrite HV. simpl.
      pose proof (well_formed_chars _ _ _ _ Hwf HV) as Hlt.
      destruct (lookup_lt_is_Some_2 h (chars vd)) as [o Ho]; [lia|].
      unfold h1. rewrite assign_all_lookup, Ho. simpl.
      rewrite decide_True by (by left). simpl. by apply lookup_union_Some_l. }
    exists h1. split; [done|]. split; [by apply own_entry_getChar|].
    intros ms this2 h2 Hms Hkeep. apply own_entry_getChar.
    by eapply (own_entry_kept V c X ms this h1).
Qed.

Lemma bold_italic_in_order :
  well_formed bold_italic_state.1 bold_italic_state.2 ∧ separated bold_italic_state.1.
Proof.
  assert (apply_mutations [CreateVariant "bold-italic" (Some "italic") (Some "bold")]
            sample_font sample_heap
          = Returns (bold_italic_state.1, bold_italic_state.2)) as Hrun
    by (vm_compute; reflexivity).
  split.
  - eapply apply_mutations_well_formed; [apply sample_well_formed|exact Hrun].
  - eapply apply_mutations_separated;
      [apply sample_well_formed|apply sample_separated|exact Hrun].
Qed.

Lemma getChar_precedence_witness :
  getChar "bold-italic" 68 bold_italic_later_state.1 bold_italic_later_state.2
    = Returns (Some glyph_B) ∧
  getChar "bold-italic" 66 bold_italic_later_state.1 bold_italic_later_state.2
    = Returns (Some glyph_B) ∧
  getChar "bold-italic" 67 bold_italic_later_state.1 bold_italic_later_state.2
    = getChar "italic" 67 bold_italic_later_state.1 bold_italic_later_state.2 ∧
  getChar "bold" 5 own_first_later_state.1 own_first_later_state.2
    = Returns (Some glyph_B) ∧
  getChar "italic" 5 own_first_later_state.1 own_first_later_state.2
    = Returns (Some glyph_B) ∧
  getChar "bold-italic" 5 own_first_later_state.1 own_first_later_state.2
    = Returns (Some glyph_A).
Proof.
  destruct (getChar_precedence sample_font sample_heap
              sample_well_formed sample_separated) as (_ & _ & _ & Hcreated & _).
  assert (∀ c,
    getChar "bold-italic" c bold_italic_later_state.1 bold_italic_later_state.2 =
      match own_entry "bold-italic" c
              bold_italic_later_state.1 bold_italic_later_state.2 with
      | Some x => Returns (Some x)
      | None =>
          match snapshot_entry "bold-italic" c
                  bold_italic_later_state.1 bold_italic_later_state.2 with
          | Some x => Returns (Some x)
          | None => getChar "italic" c
                      bold_italic_later_state.1 bold_italic_later_state.2
          end
      end) as Hprec.
  { intros c.
    eapply (Hcreated "bold-italic" "italic" "bold"
              (mkVariant [] 2) (mkVariant [] 1)
              bold_italic_state.1 bold_italic_state.2 bold_italic_later_calls
              bold_italic_later_state.1 bold_italic_later_state.2 c).
    - discriminate.
    - discriminate.
    - reflexivity.
    - reflexivity.
    - reflexivity.
    - reflexivity.
    - kept_registered. }
  do 3 (split; [rewrite Hprec; reflexivity|]).
  split; [reflexivity|]. split; [reflexivity|].
  destruct bold_italic_in_order as [Hwf Hsep].
  destruct (getChar_precedence bold_italic_state.1 bold_italic_state.2 Hwf Hsep)
    as (_ & _ & _ & _ & Hdefined).
  destruct (Hdefined "bold-italic" (mkVariant [] 4) own_first_chars 5%Z glyph_A
              eq_refl eq_refl) as (h1 & Hdef & _ & Hlater).
  assert (h1 = own_first_state.2) as ->.
  { assert (Returns (bold_italic_state.1, h1) = Returns own_first_state) as [= ->]
      by (rewrite <- Hdef; vm_compute; reflexivity).
    reflexivity. }
  apply (Hlater own_first_later_calls).
  - vm_compute. reflexivity.
  - kept_defined.
Defined.
